(** * Elliptic-curve group arithmetic over finite fields

    A shallow embedding of [elliptic_curves/elliptic/elliptic.py]: the
    [Point] value, the abstract [Curve] engine ([add], [mul]) and its three
    variants [ZpCurve], [GF2NotSupersingularCurve] and
    [GF2SupersingularCurve], followed by the properties of the
    specification that are settled against them. *)

From Stdlib Require Import ZArith Nnat Zdivisibility List Bool Lia Ring Setoid Morphisms.
Import ListNotations.
Local Open Scope Z_scope.

(** ** Exceptions and the error monad

    Every Python exception that the module can raise, or that reaches it
    from its collaborators, is one constructor.  [NonInvertible] stands for
    the error of the field's [invert]; [TypeError] is what arithmetic on an
    absent coordinate ([None]) raises. *)

Inductive error : Set :=
| InfinitePoint
| NotOnCurve
| IncorrectOrder
| CalculationError
| ValueError
| TypeError
| NonInvertible.

Definition outcome (A : Type) : Type := (error + A)%type.

Definition Ok {A : Type} (a : A) : outcome A := inr a.
Definition raise {A : Type} (e : error) : outcome A := inl e.

Definition bind {A B : Type} (c : outcome A) (k : A -> outcome B) : outcome B :=
  match c with
  | inl e => inl e
  | inr a => k a
  end.

Notation "x <- c ;; k" := (bind c (fun x => k))
  (at level 61, c at next level, right associativity).

(** Python's [==] on the coordinate type. *)
Class Eqb (T : Type) : Type := {
  eqb : T -> T -> bool;
  eqb_eq : forall a b : T, eqb a b = true <-> a = b
}.

#[export] Instance Z_Eqb : Eqb Z := {| eqb := Z.eqb; eqb_eq := Z.eqb_eq |}.

(** [==] on [Optional[T]]: [None] equals only [None]. *)
Definition opt_eqb {T : Type} `{Eqb T} (u v : option T) : bool :=
  match u, v with
  | None, None => true
  | Some a, Some b => eqb a b
  | _, _ => false
  end.

(** Reading a coordinate for arithmetic: [None] raises [TypeError]. *)
Definition coord {T : Type} (c : option T) : outcome T :=
  match c with
  | Some v => Ok v
  | None => raise TypeError
  end.

(** ** The point entity *)

Record Point (T : Type) : Type := mkPoint { x : option T; y : option T }.
Arguments mkPoint {T} _ _.
Arguments x {T} _.
Arguments y {T} _.

Definition infinity {T : Type} : Point T := mkPoint None None.

Definition is_infinite {T : Type} (P : Point T) : bool :=
  match x P, y P with
  | None, None => true
  | _, _ => false
  end.

(** [Point.__eq__] between two points (the [TypeError] for an operand
    that is not a [Point] is excluded by the types). *)
Definition point_eqb {T : Type} `{Eqb T} (P Q : Point T) : bool :=
  opt_eqb (x P) (x Q) && opt_eqb (y P) (y Q).

(** A point with both coordinates present. *)
Definition Affine {T : Type} (px py : T) : Point T := mkPoint (Some px) (Some py).

(** ** The field capability contract *)

(** Modelled from the spec: the class [Field] of [elliptic_curves.field]
    is not part of the module.  These are the members of a field instance
    that the curve code calls: [zero()], [modulus(value)], the canonical
    reduction, [invert(value)], which fails when the element has no
    inverse, and [normalize_element(value)]. *)

Record Field (T : Type) : Type := mkField {
  zero : T;
  modulus : T -> T;
  invert : T -> outcome T;
  normalize_element : T -> T
}.
Arguments mkField {T} _ _ _ _.
Arguments zero {T} _.
Arguments modulus {T} _ _.
Arguments invert {T} _ _.
Arguments normalize_element {T} _ _.

(** ** The abstract curve engine

    A [Curve] owns its field and the four operations that each variant
    supplies; [add] and [mul] are written once over them. *)

Record Curve (T : Type) : Type := mkCurve {
  _field : Field T;
  _first_case_coefficient : Point T -> Point T -> outcome T;
  _second_case_coefficient : Point T -> Point T -> outcome T;
  _third_case_coefficient : Point T -> Point T -> outcome T;
  _additive_point : Point T -> Point T -> T -> outcome (Point T)
}.
Arguments mkCurve {T} _ _ _ _ _.
Arguments _field {T} _.
Arguments _first_case_coefficient {T} _ _ _.
Arguments _second_case_coefficient {T} _ _ _.
Arguments _third_case_coefficient {T} _ _ _.
Arguments _additive_point {T} _ _ _ _.

Section Engine.
Context {T : Type} `{Eqb T}.
Variable C : Curve T.

(** The body of the [try] block of [add]: classification into the three
    cases and the coefficient of the selected one. *)
Definition coefficient (first_point second_point : Point T) : outcome T :=
  if negb (opt_eqb (x first_point) (x second_point)) then
    _first_case_coefficient C first_point second_point
  else if opt_eqb (x first_point) (x second_point)
          && negb (opt_eqb (y first_point) (y second_point)) then
    _second_case_coefficient C first_point second_point
  else
    _third_case_coefficient C first_point second_point.

Definition add (first_point second_point : Point T) : outcome (Point T) :=
  if is_infinite first_point then Ok second_point
  else if is_infinite second_point then Ok first_point
  else
    match coefficient first_point second_point with
    | inl InfinitePoint => Ok infinity
    | inl e => raise e
    | inr k =>
        let k := normalize_element (_field C) k in
        result_point <- _additive_point C first_point second_point k ;;
        rx <- coord (x result_point) ;;
        ry <- coord (y result_point) ;;
        Ok (mkPoint (Some (normalize_element (_field C) rx))
                    (Some (normalize_element (_field C) ry)))
    end.

(** The [while scalar:] loop of [mul] on a positive scalar, read by its
    binary digits: the lowest bit selects the addition into [result],
    [addend] is doubled on every iteration (also the last one), and the
    scalar is shifted right. *)
Fixpoint mul_loop (scalar : positive) (result addend : Point T)
  : outcome (Point T) :=
  match scalar with
  | xH =>
      result <- add result addend ;;
      _ <- add addend addend ;;
      Ok result
  | xO scalar' =>
      addend <- add addend addend ;;
      mul_loop scalar' result addend
  | xI scalar' =>
      result <- add result addend ;;
      addend <- add addend addend ;;
      mul_loop scalar' result addend
  end.

(** [mul] for a non-negative scalar (on a negative one the Python loop
    never ends: [>>=] keeps it negative). *)
Definition mul (first_point : Point T) (scalar : N) : outcome (Point T) :=
  match scalar with
  | N0 => Ok infinity
  | Npos s => mul_loop s infinity first_point
  end.

(** The same [while scalar:] loop on a Python integer of either sign, run
    for at most [fuel] iterations; [None] when the fuel does not reach
    the end of the loop.  [scalar & 1] is [Z.land], [scalar >>= 1] the
    arithmetic shift [Z.shiftr]. *)
Fixpoint mul_while (fuel : nat) (scalar : Z) (result addend : Point T)
  : option (outcome (Point T)) :=
  if scalar =? 0 then Some (Ok result)
  else
    match fuel with
    | O => None
    | S fuel' =>
        match (if negb (Z.land scalar 1 =? 0) then add result addend
               else Ok result) with
        | inl e => Some (raise e)
        | inr result =>
            match add addend addend with
            | inl e => Some (raise e)
            | inr addend => mul_while fuel' (Z.shiftr scalar 1) result addend
            end
        end
    end.
End Engine.

(** ** The prime field

    [range n] is Python's [range(n)] for an integer [n]. *)

Definition range (n : Z) : list Z := map Z.of_nat (seq 0 (Z.to_nat n)).

Module ZpField.
(** The class [ZpField] of [elliptic_curves.field] is not part of the
    module; its members are modelled from the contract of the
    specification, for the order [order]. *)

(** Modelled from the spec: [zero()], the zero element. *)
Definition zero : Z := 0.

(** Modelled from the spec: [modulus(value)], the canonical residue
    [value % order].  Python's floored remainder is [Z.modulo]. *)
Definition modulus (order value : Z) : Z := value mod order.

(** Modelled from the spec: [invert(value)], the multiplicative inverse
    modulo the order: the residue [r] of [range(order)] with
    [value * r % order = 1], and the non-invertible error when there is
    none. *)
Definition invert (order value : Z) : outcome Z :=
  match find (fun r => (value * r) mod order =? 1) (range order) with
  | Some r => Ok r
  | None => raise NonInvertible
  end.

(** Modelled from the spec: [normalize_element(value)], the residue
    normalisation. *)
Definition normalize_element (order value : Z) : Z := value mod order.

(** Modelled from the spec: the instance [ZpField(order)]. *)
Definition make (order : Z) : Field Z :=
  mkField zero (modulus order) (invert order) (normalize_element order).

(** Modelled from the spec: the attribute [_order] of [ZpField(order)],
    which [ZpCurve] reads. *)
Definition _order (order : Z) : Z := order.
End ZpField.

(** ** The prime-field curve [y^2 = x^3 + a x + b (mod p)] *)

Module ZpCurve.
Section WithParameters.
Variables p a b : Z.

Definition field : Field Z := ZpField.make p.

Definition first_case_coefficient (first_point second_point : Point Z)
  : outcome Z :=
  y2 <- coord (y second_point) ;;
  y1 <- coord (y first_point) ;;
  x2 <- coord (x second_point) ;;
  x1 <- coord (x first_point) ;;
  inv <- invert field (x2 - x1) ;;
  Ok (modulus field ((y2 - y1) * inv)).

Definition second_case_coefficient (first_point second_point : Point Z)
  : outcome Z :=
  y1 <- coord (y first_point) ;;
  y2 <- coord (y second_point) ;;
  if modulus field (y1 + y2) =? zero field then raise InfinitePoint
  else raise ValueError.

Definition third_case_coefficient (first_point second_point : Point Z)
  : outcome Z :=
  x1 <- coord (x first_point) ;;
  y1 <- coord (y first_point) ;;
  inv <- invert field (2 * y1) ;;
  Ok (modulus field ((3 * x1 ^ 2 + a) * inv)).

Definition additive_point (first_point second_point : Point Z)
    (coefficient : Z) : outcome (Point Z) :=
  x1 <- coord (x first_point) ;;
  x2 <- coord (x second_point) ;;
  let x3 := modulus field (coefficient ^ 2 - x1 - x2) in
  y1 <- coord (y first_point) ;;
  let y3 := modulus field (y1 + coefficient * (x3 - x1)) in
  Ok (mkPoint (Some x3) (Some (modulus field (- y3)))).

Definition curve : Curve Z :=
  mkCurve field first_case_coefficient second_case_coefficient
          third_case_coefficient additive_point.

Definition is_on_curve (point : Point Z) : outcome bool :=
  if is_infinite point then Ok true
  else
    py <- coord (y point) ;;
    px <- coord (x point) ;;
    Ok (modulus field (py ^ 2) =? modulus field (px ^ 3 + a * px + b)).

(** [all_points] is a generator.  Its state is the part of
    [product(range(order), repeat=2)] not yet visited, or [Exhausted]
    once the identity point has been yielded. *)
Inductive generator : Type :=
| Scanning (rest : list (Z * Z))
| Exhausted.

Definition all_points : generator :=
  Scanning (list_prod (range (ZpField._order p)) (range (ZpField._order p))).

(** Runs the generator body up to its next [yield]. *)
Fixpoint resume (rest : list (Z * Z)) : outcome (Point Z * generator) :=
  match rest with
  | [] => Ok (infinity, Exhausted)
  | (cx, cy) :: rest' =>
      let point := mkPoint (Some cx) (Some cy) in
      on <- is_on_curve point ;;
      if on then Ok (point, Scanning rest') else resume rest'
  end.

(** [next(g)]: [None] is [StopIteration]. *)
Definition next (g : generator) : outcome (option (Point Z * generator)) :=
  match g with
  | Scanning rest => r <- resume rest ;; Ok (Some r)
  | Exhausted => Ok None
  end.

(** [list(g)], by at most [fuel] calls of [next]; [None] when the fuel
    does not reach the end of the generator. *)
Fixpoint collect (fuel : nat) (g : generator)
  : outcome (option (list (Point Z))) :=
  match fuel with
  | O => Ok None
  | S fuel' =>
      step <- next g ;;
      match step with
      | None => Ok (Some [])
      | Some (point, g') =>
          tl <- collect fuel' g' ;;
          Ok (option_map (cons point) tl)
      end
  end.

(** The [while] loop of [point_order], entered with the counter [n].
    Every iteration evaluates [mul(point, n)] before the bound test, as
    Python's [and] does.  The loop leaves after at most [order]
    increments, which is the fuel [point_order] gives it. *)
Fixpoint point_order_loop (fuel : nat) (point : Point Z) (n : Z)
  : outcome Z :=
  multiple <- mul curve point (Z.to_N n) ;;
  if negb (point_eqb multiple infinity) && (n <=? ZpField._order p) then
    match fuel with
    | O => Ok n
    | S fuel' => point_order_loop fuel' point (n + 1)
    end
  else Ok n.

Definition point_order (point : Point Z) : outcome Z :=
  if point_eqb point infinity then raise InfinitePoint
  else
    on <- is_on_curve point ;;
    if negb on then raise NotOnCurve
    else
      n <- point_order_loop (Z.to_nat (ZpField._order p)) point 2 ;;
      if n >? ZpField._order p then raise IncorrectOrder else Ok n.

Definition order : Z := ZpField._order p.
End WithParameters.
End ZpCurve.

(** ** The binary fields *)

(** Modelled from the spec: the class [Polynomial] is not part of the
    module.  The elements of a binary field are its values; the curve code
    combines them with the operators [+] and [*] of that class and compares
    them with [==]. *)
Class PolynomialOps (T : Type) : Type := {
  padd : T -> T -> T;
  pmul : T -> T -> T
}.

Declare Scope poly_scope.
Delimit Scope poly_scope with poly.
Infix "+" := padd : poly_scope.
Infix "*" := pmul : poly_scope.

(** [GF2CurveBase] stores the coefficients [a], [b], [c] and builds the
    field [GF2PolynomialField(p)]; that class is outside the module, so the
    variants below take the field instance in place of [p]. *)

Module GF2NotSupersingularCurve.
Section WithParameters.
Context {Polynomial : Type} `{Eqb Polynomial} `{PolynomialOps Polynomial}.
Variable field : Field Polynomial.
Variables a b c : Polynomial.
Local Open Scope poly_scope.

Definition first_case_coefficient (first_point second_point : Point Polynomial)
  : outcome Polynomial :=
  y1 <- coord (y first_point) ;;
  y2 <- coord (y second_point) ;;
  x1 <- coord (x first_point) ;;
  x2 <- coord (x second_point) ;;
  inv <- invert field (x1 + x2) ;;
  Ok (modulus field ((y1 + y2) * inv)).

Definition second_case_coefficient (first_point second_point : Point Polynomial)
  : outcome Polynomial :=
  y2 <- coord (y second_point) ;;
  x1 <- coord (x first_point) ;;
  y1 <- coord (y first_point) ;;
  if eqb (modulus field y2) (modulus field (a * x1 + y1))
  then raise InfinitePoint
  else raise CalculationError.

Definition third_case_coefficient (first_point second_point : Point Polynomial)
  : outcome Polynomial :=
  x1 <- coord (x first_point) ;;
  y1 <- coord (y first_point) ;;
  inv <- invert field (a * x1) ;;
  Ok (modulus field ((x1 * x1 + a * y1) * inv)).

Definition additive_point (first_point second_point : Point Polynomial)
    (coefficient : Polynomial) : outcome (Point Polynomial) :=
  x1 <- coord (x first_point) ;;
  x2 <- coord (x second_point) ;;
  let x3 := modulus field (coefficient * coefficient + a * coefficient
                           + b + x1 + x2) in
  y1 <- coord (y first_point) ;;
  let y3 := modulus field (y1 + coefficient * (x3 + x1)) in
  Ok (mkPoint (Some x3) (Some (modulus field (a * x3 + y3)))).

Definition curve : Curve Polynomial :=
  mkCurve field first_case_coefficient second_case_coefficient
          third_case_coefficient additive_point.

End WithParameters.
End GF2NotSupersingularCurve.

Module GF2SupersingularCurve.
Section WithParameters.
Context {Polynomial : Type} `{Eqb Polynomial} `{PolynomialOps Polynomial}.
Variable field : Field Polynomial.
Variables a b c : Polynomial.
Local Open Scope poly_scope.

Definition first_case_coefficient (first_point second_point : Point Polynomial)
  : outcome Polynomial :=
  y1 <- coord (y first_point) ;;
  y2 <- coord (y second_point) ;;
  x1 <- coord (x first_point) ;;
  x2 <- coord (x second_point) ;;
  inv <- invert field (x1 + x2) ;;
  Ok (modulus field ((y1 + y2) * inv)).

Definition second_case_coefficient (first_point second_point : Point Polynomial)
  : outcome Polynomial :=
  y2 <- coord (y second_point) ;;
  y1 <- coord (y first_point) ;;
  if eqb (modulus field y2) (modulus field (a + y1))
  then raise InfinitePoint
  else raise CalculationError.

Definition third_case_coefficient (first_point second_point : Point Polynomial)
  : outcome Polynomial :=
  if eqb (modulus field a) (zero field) then raise CalculationError
  else
    x1 <- coord (x first_point) ;;
    inv <- invert field a ;;
    Ok (modulus field ((x1 * x1 + b) * inv)).

Definition additive_point (first_point second_point : Point Polynomial)
    (coefficient : Polynomial) : outcome (Point Polynomial) :=
  x1 <- coord (x first_point) ;;
  x2 <- coord (x second_point) ;;
  let x3 := modulus field (coefficient * coefficient + x1 + x2) in
  y1 <- coord (y first_point) ;;
  let y3 := modulus field (y1 + coefficient * (x3 + x1)) in
  Ok (mkPoint (Some x3) (Some (modulus field (a + y3)))).

Definition curve : Curve Polynomial :=
  mkCurve field first_case_coefficient second_case_coefficient
          third_case_coefficient additive_point.

End WithParameters.
End GF2SupersingularCurve.

(** * Vocabulary of the properties

    The notions in which the properties below are stated.  They are not
    part of the module. *)

(** [doubles C n A]: the first [n] doublings of the addend of [mul],
    starting at [A], all return.  These are the doublings of a run of
    [mul_loop] on a scalar of [n] binary digits. *)
Fixpoint doubles {T : Type} `{Eqb T} (C : Curve T) (n : nat) (A : Point T)
  : Prop :=
  match n with
  | O => True
  | S n' => exists A', add C A A = Ok A' /\ doubles C n' A'
  end.

(** [doublings C k P]: [P] doubled [k] times by [add]. *)
Fixpoint doublings {T : Type} `{Eqb T} (C : Curve T) (k : nat) (P : Point T)
  : outcome (Point T) :=
  match k with
  | O => Ok P
  | S k' => A <- add C P P ;; doublings C k' A
  end.

(** The invariant of a point: it is the identity, with both coordinates
    absent, or both coordinates are present. *)
Definition well_formed {T : Type} (P : Point T) : bool :=
  match x P, y P with
  | Some _, Some _ => true
  | None, None => true
  | _, _ => false
  end.

Module Zp.
Section WithParameters.
Variables p a b : Z.

(** A point is [reduced] when it is the identity or both coordinates are
    canonical residues, the values of [range(p)]. *)
Definition reduced (P : Point Z) : bool :=
  match x P, y P with
  | Some px, Some py => (0 <=? px) && (px <? p) && (0 <=? py) && (py <? p)
  | None, None => true
  | _, _ => false
  end.

(** The points the group law is about: reduced and on the curve. *)
Definition valid (P : Point Z) : Prop :=
  reduced P = true /\ ZpCurve.is_on_curve p a b P = Ok true.

(** The tangent at [P] is vertical: [2 * Py] reduces to zero. *)
Definition vertical_tangent (P : Point Z) : bool :=
  match y P with
  | Some py => (2 * py) mod p =? 0
  | None => false
  end.

(** The coordinates of the point that [add] builds from the coefficient
    [k] of a strategy. *)
Definition sum_x (x1 x2 k : Z) : Z := ((k mod p) ^ 2 - x1 - x2) mod p.
Definition sum_y (x1 y1 x2 k : Z) : Z :=
  - ((y1 + (k mod p) * (sum_x x1 x2 k - x1)) mod p) mod p.

(** The test of [is_on_curve] on a coordinate pair. *)
Definition satisfies (c : Z * Z) : bool :=
  (snd c ^ 2) mod p =? (fst c ^ 3 + a * fst c + b) mod p.

Definition point_of (c : Z * Z) : Point Z := Affine (fst c) (snd c).

(** What a generator of [all_points] still has to yield. *)
Definition remaining (g : ZpCurve.generator) : list (Point Z) :=
  match g with
  | ZpCurve.Scanning rest => map point_of (filter satisfies rest) ++ [infinity]
  | ZpCurve.Exhausted => []
  end.
End WithParameters.
End Zp.

Module GF2.
Section WithField.
Context {T : Type} `{Eqb T} `{PolynomialOps T}.
Variable F : Field T.
Local Open Scope poly_scope.

(** Congruence modulo the field's polynomial. *)
Definition congruent (u v : T) : Prop := modulus F u = modulus F v.

(** The coefficients of the polynomials are in GF(2). *)
Definition of_bit (one : T) (c : bool) : T := if c then one else zero F.

(** The module has no membership test for the binary variants.  The four
    operations of [GF2NotSupersingularCurve] are the chord-and-tangent
    law of the curve [y^2 + a x y = x^3 + b x^2 + c] over the field (the
    coefficient of case 3 is the slope of its tangent, the abscissa of
    [additive_point] the third root on a line of slope [k]); this is its
    equation, through [modulus]. *)
Definition NS_equation (a b c px py : T) : bool :=
  eqb (modulus F (py * py + a * px * py))
      (modulus F (px * px * px + b * px * px + c)).

(** In the same way the operations of [GF2SupersingularCurve] are the
    chord-and-tangent law of [y^2 + a y = x^3 + b x + c]. *)
Definition SS_equation (a b c px py : T) : bool :=
  eqb (modulus F (py * py + a * py))
      (modulus F (px * px * px + b * px + c)).

(** A point of a binary curve is [reduced] when it is the identity or
    [modulus] keeps both coordinates. *)
Definition reduced (P : Point T) : bool :=
  match x P, y P with
  | Some px, Some py => eqb (modulus F px) px && eqb (modulus F py) py
  | None, None => true
  | _, _ => false
  end.

Definition NS_valid (a b c : T) (P : Point T) : Prop :=
  reduced P = true
  /\ match x P, y P with
     | Some px, Some py => NS_equation a b c px py = true
     | _, _ => True
     end.

Definition SS_valid (a b c : T) (P : Point T) : Prop :=
  reduced P = true
  /\ match x P, y P with
     | Some px, Some py => SS_equation a b c px py = true
     | _, _ => True
     end.
End WithField.
End GF2.

(** Modelled from the spec: [GF2PolynomialField] is not part of the
    module; this is what the properties of the binary curves use of it
    and of [Polynomial].  The
    polynomials over GF(2) are a commutative ring of characteristic 2,
    [modulus] is the reduction onto a quotient of it without zero
    divisors (the modulus polynomial is irreducible), [invert] returns an
    inverse in that quotient when it returns, and it returns for every
    element that does not reduce to zero, and [normalize_element] keeps
    reduced elements. *)
Record BinaryField {T : Type} `{PolynomialOps T} (F : Field T) (one : T)
  : Prop := mkBinaryField {
  padd_comm : forall u v : T, (u + v = v + u)%poly;
  padd_assoc : forall u v w : T, (u + (v + w) = (u + v) + w)%poly;
  padd_zero : forall u : T, (zero F + u = u)%poly;
  padd_self : forall u : T, (u + u = zero F)%poly;
  pmul_comm : forall u v : T, (u * v = v * u)%poly;
  pmul_assoc : forall u v w : T, (u * (v * w) = (u * v) * w)%poly;
  pmul_one : forall u : T, (one * u = u)%poly;
  pmul_distr : forall u v w : T, ((u + v) * w = u * w + v * w)%poly;
  modulus_add : forall u v : T,
    modulus F (u + v)%poly = modulus F (modulus F u + modulus F v)%poly;
  modulus_mul : forall u v : T,
    modulus F (u * v)%poly = modulus F (modulus F u * modulus F v)%poly;
  modulus_idem : forall u : T, modulus F (modulus F u) = modulus F u;
  modulus_integral : forall u v : T,
    modulus F (u * v)%poly = modulus F (zero F) ->
    modulus F u = modulus F (zero F) \/ modulus F v = modulus F (zero F);
  invert_inverse : forall u r : T,
    invert F u = Ok r -> modulus F (u * r)%poly = modulus F one;
  invert_total : forall u : T,
    modulus F u <> modulus F (zero F) -> exists r : T, invert F u = Ok r;
  normalize_reduced : forall u : T,
    normalize_element F (modulus F u) = modulus F u
}.

(** *** A concrete binary field *)

(** Modelled from the spec: an instance of the binary field, GF(4), the
    residues of GF(2)[t] modulo [t^2 + t + 1]: the pair [(c0, c1)] is
    [c0 + c1 t].  Its elements are reduced by construction, so [modulus]
    keeps them; [invert] fails on zero and is the square elsewhere. *)
Module GF4.
(** Modelled from the spec: the elements, as pairs of coefficients. *)
Definition t : Type := (bool * bool)%type.

(** Modelled from the spec: [+] of polynomials over GF(2). *)
Definition add (u v : t) : t := (xorb (fst u) (fst v), xorb (snd u) (snd v)).

(** Modelled from the spec: [*] followed by the reduction by
    [t^2 = t + 1]. *)
Definition mul (u v : t) : t :=
  (xorb (fst u && fst v) (snd u && snd v),
   xorb (xorb (fst u && snd v) (snd u && fst v)) (snd u && snd v)).

Definition zero : t := (false, false).
Definition one : t := (true, false).

Definition eqb (u v : t) : bool :=
  Bool.eqb (fst u) (fst v) && Bool.eqb (snd u) (snd v).

(** Modelled from the spec: [invert], failing on the zero element. *)
Definition invert (u : t) : outcome t :=
  if eqb u zero then raise NonInvertible else Ok (mul u u).

(** Modelled from the spec: the field instance. *)
Definition field : Field t := mkField zero (fun u => u) invert (fun u => u).
End GF4.

#[export] Instance GF4_Eqb : Eqb GF4.t.
Proof.
  refine {| eqb := GF4.eqb |}.
  intros [[] []] [[] []]; cbn; split; congruence.
Defined.
#[export] Instance GF4_PolynomialOps : PolynomialOps GF4.t :=
  {| padd := GF4.add; pmul := GF4.mul |}.

(** * Properties *)

(** ** The error monad and points *)

Lemma bind_Ok {A B : Type} (c : outcome A) (k : A -> outcome B) (v : B) :
  bind c k = Ok v -> exists u, c = Ok u /\ k u = Ok v.
Proof.
  destruct c as [e | u]; simpl; intros Hc; [discriminate | eauto].
Qed.

Lemma opt_eqb_eq {T : Type} `{Eqb T} (u v : option T) :
  opt_eqb u v = true <-> u = v.
Proof.
  destruct u as [u |], v as [v |]; simpl; try (split; congruence).
  rewrite eqb_eq. split; congruence.
Qed.

Lemma opt_eqb_refl {T : Type} `{Eqb T} (u : option T) : opt_eqb u u = true.
Proof. now apply opt_eqb_eq. Qed.

Lemma opt_eqb_sym {T : Type} `{Eqb T} (u v : option T) :
  opt_eqb u v = opt_eqb v u.
Proof.
  destruct (opt_eqb u v) eqn:E, (opt_eqb v u) eqn:E'; try reflexivity.
  - apply opt_eqb_eq in E. subst. rewrite opt_eqb_refl in E'. discriminate.
  - apply opt_eqb_eq in E'. subst. rewrite opt_eqb_refl in E. discriminate.
Qed.

Lemma point_eqb_eq {T : Type} `{Eqb T} (P Q : Point T) :
  point_eqb P Q = true <-> P = Q.
Proof.
  unfold point_eqb. rewrite andb_true_iff, !opt_eqb_eq.
  destruct P, Q; simpl. split; [intros [-> ->] | intros [= -> ->]]; auto.
Qed.

Lemma is_infinite_eq {T : Type} (P : Point T) :
  is_infinite P = true <-> P = infinity.
Proof.
  destruct P as [[u |] [v |]]; unfold is_infinite, infinity; simpl;
    split; congruence.
Qed.

(** ** The engine *)

Section EngineProperties.
Context {T : Type} `{Eqb T}.
Variable C : Curve T.

Lemma add_infinity_l (Q : Point T) : add C infinity Q = Ok Q.
Proof. reflexivity. Qed.

Lemma add_infinity_r (P : Point T) : add C P infinity = Ok P.
Proof.
  unfold add. destruct (is_infinite P) eqn:E; [| reflexivity].
  apply is_infinite_eq in E. now subst.
Qed.

(** Adding a point to itself is case 3. *)
Lemma coefficient_double (P : Point T) :
  coefficient C P P = _third_case_coefficient C P P.
Proof. unfold coefficient. now rewrite !opt_eqb_refl. Qed.

(** [add] is symmetric as soon as the strategies of the variant are. *)
Lemma add_symmetric :
  (forall P Q, coefficient C P Q = coefficient C Q P) ->
  (forall P Q k, coefficient C P Q = Ok k ->
     _additive_point C P Q (normalize_element (_field C) k)
     = _additive_point C Q P (normalize_element (_field C) k)) ->
  forall P Q, add C P Q = add C Q P.
Proof.
  intros Hc Ha P Q. unfold add.
  destruct (is_infinite P) eqn:EP, (is_infinite Q) eqn:EQ;
    try reflexivity.
  - apply is_infinite_eq in EP, EQ. now subst.
  - specialize (Ha P Q). rewrite <- (Hc P Q).
    destruct (coefficient C P Q) as [e | k]; [reflexivity |].
    now rewrite (Ha k eq_refl).
Qed.

(** The signal [InfinitePoint] does not leave [add]: inside the [try] it
    is turned into the identity point, and after it only the additive
    formula runs. *)
Lemma add_catches_InfinitePoint :
  (forall P Q k, _additive_point C P Q k <> raise InfinitePoint) ->
  forall P Q, add C P Q <> raise InfinitePoint.
Proof.
  intros Ha P Q. unfold add.
  destruct (is_infinite P); [discriminate |].
  destruct (is_infinite Q); [discriminate |].
  destruct (coefficient C P Q) as [e | k].
  - destruct e; discriminate.
  - specialize (Ha P Q (normalize_element (_field C) k)).
    destruct (_additive_point C P Q _) as [e | R]; simpl.
    + exact Ha.
    + destruct (x R), (y R); discriminate.
Qed.

(** A strategy that signals [InfinitePoint] makes [add] return the
    identity. *)
Lemma add_signal_is_infinity (P Q : Point T) :
  is_infinite P = false -> is_infinite Q = false ->
  coefficient C P Q = raise InfinitePoint ->
  add C P Q = Ok infinity.
Proof.
  intros HP HQ Hc. unfold add. now rewrite HP, HQ, Hc.
Qed.

Lemma mul_loop_catches_InfinitePoint :
  (forall P Q, add C P Q <> raise InfinitePoint) ->
  forall s R A, mul_loop C s R A <> raise InfinitePoint.
Proof.
  intros Ha s. induction s as [s IH | s IH |]; intros R A; simpl.
  - pose proof (Ha R A). pose proof (Ha A A).
    destruct (add C R A) as [e | R1]; simpl; [assumption |].
    destruct (add C A A) as [e | A1]; simpl; [assumption | apply IH].
  - pose proof (Ha A A).
    destruct (add C A A) as [e | A1]; simpl; [assumption | apply IH].
  - pose proof (Ha R A). pose proof (Ha A A).
    destruct (add C R A) as [e | R1]; simpl; [assumption |].
    destruct (add C A A) as [e | A1]; simpl; [assumption | discriminate].
Qed.

Lemma mul_catches_InfinitePoint :
  (forall P Q, add C P Q <> raise InfinitePoint) ->
  forall P n, mul C P n <> raise InfinitePoint.
Proof.
  intros Ha P [| s]; simpl; [discriminate |].
  now apply mul_loop_catches_InfinitePoint.
Qed.

Lemma mul_zero (P : Point T) : mul C P 0 = Ok infinity.
Proof. reflexivity. Qed.

(** One iteration: the result is [P], but the addend is doubled all the
    same, and an error of that doubling leaves [mul]. *)
Lemma mul_one (P : Point T) : mul C P 1 = (_ <- add C P P ;; Ok P).
Proof. reflexivity. Qed.

(** The loop of [mul] in the terms of the source: test of the lowest bit
    with [&], shift with [>>]. *)
Lemma mul_loop_unfold (s : positive) (R A : Point T) :
  mul_loop C s R A
  = (R' <- (if N.land (Npos s) 1 =? 1 then add C R A else Ok R)%N ;;
     A' <- add C A A ;;
     match N.shiftr (Npos s) 1 with
     | N0 => Ok R'
     | Npos s' => mul_loop C s' R' A'
     end).
Proof.
  destruct s as [s | s |]; reflexivity.
Qed.
End EngineProperties.

(** *** Scalar multiplication over a closed addition

    [valid] is a set of points that contains the identity and is closed
    under [add], a doubling that raises set aside. *)

Section Closure.
Context {T : Type} `{Eqb T}.
Variable C : Curve T.
Variable valid : Point T -> Prop.
Hypothesis valid_infinity : valid infinity.
Hypothesis add_closed : forall P Q : Point T,
  valid P -> valid Q ->
  (exists R, add C P Q = Ok R /\ valid R)
  \/ (P = Q /\ exists e, add C P P = inl e).

Lemma doubles_le (m n : nat) (A : Point T) :
  (m <= n)%nat -> doubles C n A -> doubles C m A.
Proof.
  revert n A. induction m as [| m IH]; intros n A Hle Hn; [exact I |].
  destruct n as [| n]; [lia |].
  destruct Hn as [A' [HA Hn]]. exists A'. split; [exact HA |].
  apply (IH n); [lia | exact Hn].
Qed.

(** A run of the loop that returns has made all its doublings. *)
Lemma mul_loop_doubles (s : positive) (R A R' : Point T) :
  mul_loop C s R A = Ok R' -> doubles C (Pos.size_nat s) A.
Proof.
  revert R A. induction s as [s IH | s IH |]; intros R A; simpl.
  - intros Hm. apply bind_Ok in Hm. destruct Hm as [R1 [_ Hm]].
    apply bind_Ok in Hm. destruct Hm as [A1 [HA Hm]].
    exists A1. split; [exact HA | now apply (IH R1)].
  - intros Hm. apply bind_Ok in Hm. destruct Hm as [A1 [HA Hm]].
    exists A1. split; [exact HA | now apply (IH R)].
  - intros Hm. apply bind_Ok in Hm. destruct Hm as [R1 [_ Hm]].
    apply bind_Ok in Hm. destruct Hm as [A1 [HA _]].
    exists A1. now split.
Qed.

(** When the doubling of the addend returns, so does the addition into
    the result: the only addition that can raise is that same doubling. *)
Lemma add_closed_doubled (R A A' : Point T) :
  valid R -> valid A -> add C A A = Ok A' ->
  (exists R', add C R A = Ok R' /\ valid R') /\ valid A'.
Proof.
  intros HR HA HD. split.
  - destruct (add_closed R A HR HA) as [HS | [-> [e HF]]]; [exact HS |].
    rewrite HD in HF. discriminate.
  - destruct (add_closed A A HA HA) as [[A1 [H1 HV]] | [_ [e HF]]].
    + rewrite HD in H1. now injection H1 as <-.
    + rewrite HD in HF. discriminate.
Qed.

(** With its doublings returning, the loop returns a valid point. *)
Lemma mul_loop_total (s : positive) (R A : Point T) :
  valid R -> valid A -> doubles C (Pos.size_nat s) A ->
  exists R', mul_loop C s R A = Ok R' /\ valid R'.
Proof.
  revert R A. induction s as [s IH | s IH |]; intros R A HR HA HD; simpl in *.
  - destruct HD as [A1 [HA1 HD]].
    destruct (add_closed_doubled R A A1 HR HA HA1) as [[R1 [HR1 HV1]] HVA].
    rewrite HR1, HA1. simpl bind. now apply IH.
  - destruct HD as [A1 [HA1 HD]].
    destruct (add_closed_doubled R A A1 HR HA HA1) as [_ HVA].
    rewrite HA1. simpl bind. now apply IH.
  - destruct HD as [A1 [HA1 _]].
    destruct (add_closed_doubled R A A1 HR HA HA1) as [[R1 [HR1 HV1]] _].
    rewrite HR1, HA1. simpl bind. now exists R1.
Qed.

Lemma mul_total (P : Point T) (n : N) :
  valid P -> doubles C (N.size_nat n) P ->
  exists R, mul C P n = Ok R /\ valid R.
Proof.
  intros HP HD. destruct n as [| s]; simpl.
  - now exists infinity.
  - now apply mul_loop_total.
Qed.

(** If [mul] returns for a scalar, it returns for every smaller one. *)
Lemma mul_total_below (P R : Point T) (k n : N) :
  valid P -> mul C P n = Ok R -> (k <= n)%N ->
  exists R', mul C P k = Ok R' /\ valid R'.
Proof.
  intros HP Hn Hk. apply mul_total; [exact HP |].
  destruct k as [| k]; [exact I |].
  destruct n as [| n]; [lia |]. simpl in Hn.
  apply mul_loop_doubles in Hn.
  apply (doubles_le _ (Pos.size_nat n)); [| exact Hn].
  destruct (Pos.eq_dec k n) as [-> | Hne]; [simpl; lia |].
  apply Pos.size_nat_monotone. lia.
Qed.
End Closure.

(** ** Arithmetic modulo the field order *)

Lemma range_In (n r : Z) : In r (range n) <-> 0 <= r < n.
Proof.
  unfold range. rewrite in_map_iff. split.
  - intros [k [<- Hk]]. apply in_seq in Hk. lia.
  - intros Hr. exists (Z.to_nat r). rewrite in_seq. lia.
Qed.

(** Congruence modulo [p] ([eqm p] of the standard library) is compatible
    with the ring operations; this is what reasoning "in the field"
    amounts to for values that pass through [modulus]. *)
#[export] Instance eqm_Equivalence (p : Z) : Equivalence (eqm p) :=
  eqm_setoid p.
#[export] Instance eqm_add (p : Z) : Proper (eqm p ==> eqm p ==> eqm p) Z.add :=
  Zplus_eqm p.
#[export] Instance eqm_sub (p : Z) : Proper (eqm p ==> eqm p ==> eqm p) Z.sub :=
  Zminus_eqm p.
#[export] Instance eqm_mul (p : Z) : Proper (eqm p ==> eqm p ==> eqm p) Z.mul :=
  Zmult_eqm p.
#[export] Instance eqm_opp (p : Z) : Proper (eqm p ==> eqm p) Z.opp :=
  Zopp_eqm p.

Section Residues.
Variable p : Z.

Local Notation "u == v" := (eqm p u v) (at level 70).

Lemma eq_eqm (u v : Z) : u = v -> u == v.
Proof. now intros ->. Qed.

Lemma eqm_canonical (u v : Z) :
  0 <= u < p -> 0 <= v < p -> u == v -> u = v.
Proof.
  unfold eqm. intros Hu Hv E.
  now rewrite (Z.mod_small u p), (Z.mod_small v p) in E.
Qed.

Lemma eqm_divide (u v : Z) : p <> 0 -> (u == v <-> (p | u - v)).
Proof.
  intros Hp. unfold eqm. split.
  - intros E. apply (Z.mod_divide _ _ Hp).
    rewrite Zminus_mod, E, Z.sub_diag. now apply Z.mod_0_l.
  - intros D. apply Z.mod0_divide in D.
    rewrite <- (Z.sub_add v u) at 1.
    now rewrite Zplus_mod, D, Z.add_0_l, Z.mod_mod.
Qed.

(** *** The model of [invert] *)

Lemma unit_residue (u : Z) : 0 < p -> u mod p = 1 -> u == 1.
Proof.
  intros Hp Hu. unfold eqm. rewrite Hu. symmetry. apply Z.mod_small.
  pose proof (Z.mod_pos_bound u p). lia.
Qed.

Lemma invert_Ok (v r : Z) :
  ZpField.invert p v = Ok r -> 0 <= r < p /\ (v * r) mod p = 1.
Proof.
  unfold ZpField.invert.
  destruct (find _ _) as [r' |] eqn:F; [| discriminate].
  intros [= <-]. apply find_some in F. destruct F as [Hin Hr].
  apply range_In in Hin. apply Z.eqb_eq in Hr. now split.
Qed.

Lemma invert_Ok_eqm (v r : Z) : ZpField.invert p v = Ok r -> v * r == 1.
Proof.
  intros E. apply invert_Ok in E. apply unit_residue; [lia | tauto].
Qed.

Lemma invert_error (v : Z) (e : error) :
  ZpField.invert p v = inl e -> e = NonInvertible.
Proof.
  unfold ZpField.invert. destruct (find _ _); [discriminate |].
  now intros [= <-].
Qed.

Lemma invert_unique (v r : Z) :
  0 <= r < p -> (v * r) mod p = 1 -> ZpField.invert p v = Ok r.
Proof.
  intros Hr Hv. unfold ZpField.invert.
  destruct (find _ _) as [r' |] eqn:F.
  - apply find_some in F. destruct F as [Hin Hr'].
    apply range_In in Hin. apply Z.eqb_eq in Hr'.
    apply unit_residue in Hv, Hr'; try lia.
    f_equal. apply eqm_canonical; trivial.
    transitivity (r' * (v * r)).
    + rewrite Hv. apply eq_eqm. ring.
    + transitivity ((v * r') * r); [apply eq_eqm; ring |].
      rewrite Hr'. apply eq_eqm. ring.
  - pose proof (find_none _ _ F r (proj2 (range_In p r) Hr)) as Hf.
    simpl in Hf. apply Z.eqb_neq in Hf. contradiction.
Qed.

Lemma invert_None (v : Z) :
  (forall r, 0 <= r < p -> (v * r) mod p <> 1) ->
  ZpField.invert p v = raise NonInvertible.
Proof.
  intros Hn. destruct (ZpField.invert p v) as [e | r] eqn:E.
  - now rewrite (invert_error _ _ E).
  - apply invert_Ok in E. destruct E as [Hr Hv]. now destruct (Hn r).
Qed.

(** An element that reduces to zero has no inverse. *)
Lemma invert_zero (v : Z) :
  v mod p = 0 -> ZpField.invert p v = raise NonInvertible.
Proof.
  intros Hv. apply invert_None. intros r Hr E.
  rewrite Zmult_mod, Hv, Z.mul_0_l, Z.mod_0_l in E by lia. discriminate.
Qed.

(** In a prime field every element that does not reduce to zero has
    one. *)
Lemma invert_prime (v : Z) :
  Z.prime p -> v mod p <> 0 -> exists r, ZpField.invert p v = Ok r.
Proof.
  intros Hp Hv. pose proof (Z.prime_ge_2 _ Hp) as Hp2.
  exists (Z.invmod v p mod p). apply invert_unique.
  - apply Z.mod_pos_bound. lia.
  - rewrite Zmult_mod_idemp_r, Z.mul_comm. now apply Z.invmod_prime.
Qed.

(** The inverse of the opposite is the opposite of the inverse. *)
Lemma invert_opp_Ok (v r : Z) :
  ZpField.invert p v = Ok r -> ZpField.invert p (- v) = Ok ((- r) mod p).
Proof.
  intros E. apply invert_Ok in E. destruct E as [Hr Hv].
  apply invert_unique.
  - apply Z.mod_pos_bound. lia.
  - rewrite Zmult_mod_idemp_r. now replace (- v * - r) with (v * r) by ring.
Qed.

Lemma invert_opp (v : Z) :
  ZpField.invert p (- v)
  = (r <- ZpField.invert p v ;; Ok ((- r) mod p)).
Proof.
  destruct (ZpField.invert p v) as [e | r] eqn:E; simpl.
  - rewrite (invert_error _ _ E).
    destruct (ZpField.invert p (- v)) as [e' | r'] eqn:E'.
    + now rewrite (invert_error _ _ E').
    + apply invert_opp_Ok in E'. rewrite Z.opp_involutive in E'.
      rewrite E in E'. discriminate.
  - now apply invert_opp_Ok.
Qed.

(** A prime field has no zero divisors. *)
Lemma eqm_integral (u v : Z) :
  Z.prime p -> u * v == 0 -> u == 0 \/ v == 0.
Proof.
  intros Hp E. pose proof (Z.prime_ge_2 _ Hp) as Hp2.
  rewrite !eqm_divide, !Z.sub_0_r in * by lia.
  now apply Z.divide_prime_mul.
Qed.
End Residues.

(** ** The group law of the prime-field curve *)

Section ChordAndTangent.
Variables p a b : Z.

Local Notation "u == v" := (eqm p u v) (at level 70).

(** The chord through two points of the curve with different abscissas
    meets the curve in a third point; [(X, Y)] is its mirror image. *)
Lemma chord_on_curve (x1 y1 x2 y2 r k X Y : Z) :
  y1 * y1 == x1 * x1 * x1 + a * x1 + b ->
  y2 * y2 == x2 * x2 * x2 + a * x2 + b ->
  (x2 - x1) * r == 1 ->
  k == (y2 - y1) * r ->
  X == k * k - x1 - x2 ->
  Y == - (y1 + k * (X - x1)) ->
  Y * Y == X * X * X + a * X + b.
Proof.
  intros H1 H2 Hr Hk HX HY.
  assert (Hkd : k * (x2 - x1) == y2 - y1).
  { rewrite Hk.
    transitivity ((y2 - y1) * ((x2 - x1) * r)); [apply eq_eqm; ring |].
    rewrite Hr. apply eq_eqm. ring. }
  set (f := fun t => t * t * t + a * t + b - (y1 + k * (t - x1)) * (y1 + k * (t - x1))).
  assert (F1 : f x1 == 0).
  { unfold f. transitivity (x1 * x1 * x1 + a * x1 + b - y1 * y1);
      [apply eq_eqm; ring |].
    rewrite H1. apply eq_eqm. ring. }
  assert (F2 : f x2 == 0).
  { unfold f.
    transitivity (x2 * x2 * x2 + a * x2 + b
                  - (y1 + k * (x2 - x1)) * (y1 + k * (x2 - x1)));
      [reflexivity |].
    rewrite Hkd.
    transitivity (x2 * x2 * x2 + a * x2 + b - y2 * y2);
      [apply eq_eqm; ring |].
    rewrite H2. apply eq_eqm. ring. }
  assert (FX : f (k * k - x1 - x2) == 0).
  { transitivity (((x2 - x1) * r) * f (k * k - x1 - x2)).
    - rewrite Hr. apply eq_eqm. ring.
    - transitivity (r * (f x2 * (k * k - x1 - x2 - x1)
                         - f x1 * (k * k - x1 - x2 - x2)));
        [apply eq_eqm; unfold f; ring |].
      rewrite F1, F2. apply eq_eqm. ring. }
  rewrite HY, HX.
  transitivity ((k * k - x1 - x2) * (k * k - x1 - x2) * (k * k - x1 - x2)
                + a * (k * k - x1 - x2) + b - f (k * k - x1 - x2));
    [apply eq_eqm; unfold f; ring |].
  rewrite FX. apply eq_eqm. ring.
Qed.

(** The tangent at a point of the curve meets it in one more point;
    [(X, Y)] is its mirror image. *)
Lemma tangent_on_curve (x1 y1 r k X Y : Z) :
  y1 * y1 == x1 * x1 * x1 + a * x1 + b ->
  (2 * y1) * r == 1 ->
  k == (3 * (x1 * x1) + a) * r ->
  X == k * k - x1 - x1 ->
  Y == - (y1 + k * (X - x1)) ->
  Y * Y == X * X * X + a * X + b.
Proof.
  intros H1 Hr Hk HX HY.
  assert (Hkd : k * (2 * y1) == 3 * (x1 * x1) + a).
  { rewrite Hk.
    transitivity ((3 * (x1 * x1) + a) * ((2 * y1) * r));
      [apply eq_eqm; ring |].
    rewrite Hr. apply eq_eqm. ring. }
  rewrite HY, HX.
  set (X' := k * k - x1 - x1).
  transitivity (X' * X' * X' + a * X' + b
                - ((x1 * x1 * x1 + a * x1 + b - y1 * y1)
                   + (3 * (x1 * x1) + a - k * (2 * y1)) * (X' - x1)));
    [apply eq_eqm; unfold X'; ring |].
  rewrite Hkd, H1. apply eq_eqm. ring.
Qed.
End ChordAndTangent.

Section ZpGroupLaw.
Variables p a b : Z.

Local Notation "u == v" := (eqm p u v) (at level 70).
Local Abbreviation C := (ZpCurve.curve p a).
Local Abbreviation is_on_curve := (ZpCurve.is_on_curve p a b).
Local Abbreviation reduced := (Zp.reduced p).
Local Abbreviation valid := (Zp.valid p a b).
Local Abbreviation vertical_tangent := (Zp.vertical_tangent p).
Local Abbreviation sum_x := (Zp.sum_x p).
Local Abbreviation sum_y := (Zp.sum_y p).

Lemma reduced_affine (px py : Z) :
  reduced (Affine px py) = true <-> 0 <= px < p /\ 0 <= py < p.
Proof. unfold reduced. simpl. lia. Qed.

Lemma is_on_curve_affine (px py : Z) :
  is_on_curve (Affine px py)
  = Ok ((py ^ 2) mod p =? (px ^ 3 + a * px + b) mod p).
Proof. reflexivity. Qed.

Lemma on_curve_eqm (px py : Z) :
  is_on_curve (Affine px py) = Ok true
  <-> py * py == px * px * px + a * px + b.
Proof.
  rewrite is_on_curve_affine. unfold Ok, eqm.
  replace (py ^ 2) with (py * py) by ring.
  replace (px ^ 3) with (px * px * px) by ring.
  split.
  - intros [= E]. now apply Z.eqb_eq.
  - intros E. f_equal. now apply Z.eqb_eq.
Qed.

Lemma coefficient_affine (x1 y1 x2 y2 : Z) :
  coefficient C (Affine x1 y1) (Affine x2 y2)
  = if negb (x1 =? x2) then
      inv <- ZpField.invert p (x2 - x1) ;;
      Ok (((y2 - y1) * inv) mod p)
    else if (x1 =? x2) && negb (y1 =? y2) then
      if (y1 + y2) mod p =? 0 then raise InfinitePoint else raise ValueError
    else
      inv <- ZpField.invert p (2 * y1) ;;
      Ok (((3 * x1 ^ 2 + a) * inv) mod p).
Proof. reflexivity. Qed.

Lemma add_affine (x1 y1 x2 y2 : Z) :
  add C (Affine x1 y1) (Affine x2 y2)
  = match coefficient C (Affine x1 y1) (Affine x2 y2) with
    | inl InfinitePoint => Ok infinity
    | inl e => raise e
    | inr k => Ok (Affine (sum_x x1 x2 k mod p) (sum_y x1 y1 x2 k mod p))
    end.
Proof.
  unfold add. simpl is_infinite. cbv iota.
  destruct (coefficient C (Affine x1 y1) (Affine x2 y2)) as [e | k];
    reflexivity.
Qed.

Lemma sum_on_curve (x1 y1 x2 k0 : Z) :
  let k := k0 mod p in
  sum_x x1 x2 k0 mod p == k * k - x1 - x2
  /\ sum_y x1 y1 x2 k0 mod p
     == - (y1 + k * (sum_x x1 x2 k0 mod p - x1)).
Proof.
  intros k. unfold sum_y, sum_x. fold k.
  set (sx := (k ^ 2 - x1 - x2) mod p).
  split.
  - rewrite (Zmod_eqm p sx). unfold sx.
    rewrite (Zmod_eqm p (k ^ 2 - x1 - x2)). apply eq_eqm. ring.
  - rewrite (Zmod_eqm p (- ((y1 + k * (sx - x1)) mod p) mod p)).
    rewrite (Zmod_eqm p (- ((y1 + k * (sx - x1)) mod p))).
    rewrite (Zmod_eqm p (y1 + k * (sx - x1))).
    rewrite (Zmod_eqm p sx). reflexivity.
Qed.

(** Case 2 on points of the curve: they are mutual inverses. *)
Lemma add_opposite (x1 y1 y2 : Z) :
  Z.prime p -> 0 <= y1 < p -> 0 <= y2 < p ->
  is_on_curve (Affine x1 y1) = Ok true ->
  is_on_curve (Affine x1 y2) = Ok true ->
  y1 <> y2 ->
  add C (Affine x1 y1) (Affine x1 y2) = Ok infinity.
Proof.
  intros Hp Hy1 Hy2 H1 H2 Hne.
  apply on_curve_eqm in H1, H2.
  rewrite add_affine, coefficient_affine.
  rewrite Z.eqb_refl. simpl negb at 1. cbv iota.
  destruct (Z.eqb_spec y1 y2) as [E | _]; [contradiction |].
  simpl andb. cbv iota.
  assert (Hs : y1 + y2 == 0).
  { assert (Hprod : (y1 - y2) * (y1 + y2) == 0).
    { transitivity (y1 * y1 - y2 * y2); [apply eq_eqm; ring |].
      rewrite H1, H2. apply eq_eqm. ring. }
    destruct (eqm_integral p _ _ Hp Hprod) as [Hd | Hd]; trivial.
    exfalso. apply Hne. apply (eqm_canonical p); trivial.
    transitivity ((y1 - y2) + y2); [apply eq_eqm; ring |].
    rewrite Hd. reflexivity. }
  unfold eqm in Hs. rewrite Hs, Z.mod_0_l by (pose proof (Z.prime_ge_2 _ Hp); lia).
  reflexivity.
Qed.

(** Case 1 on points of the curve. *)
Lemma add_distinct (x1 y1 x2 y2 : Z) :
  Z.prime p -> 0 <= x1 < p -> 0 <= x2 < p ->
  is_on_curve (Affine x1 y1) = Ok true ->
  is_on_curve (Affine x2 y2) = Ok true ->
  x1 <> x2 ->
  exists X Y,
    add C (Affine x1 y1) (Affine x2 y2) = Ok (Affine X Y)
    /\ (0 <= X < p /\ 0 <= Y < p)
    /\ is_on_curve (Affine X Y) = Ok true.
Proof.
  intros Hp Hx1 Hx2 H1 H2 Hne.
  pose proof (Z.prime_ge_2 _ Hp) as Hp2.
  apply on_curve_eqm in H1, H2.
  assert (Hd : (x2 - x1) mod p <> 0).
  { intros E. apply Hne. symmetry. apply (eqm_canonical p); trivial.
    transitivity ((x2 - x1) + x1); [apply eq_eqm; ring |].
    unfold eqm. rewrite Zplus_mod, E, Z.add_0_l. apply Zmod_mod. }
  destruct (invert_prime p _ Hp Hd) as [r Hr].
  rewrite add_affine, coefficient_affine.
  destruct (Z.eqb_spec x1 x2) as [E | _]; [contradiction |].
  simpl negb. cbv iota. rewrite Hr. simpl bind.
  set (k0 := ((y2 - y1) * r) mod p).
  exists (sum_x x1 x2 k0 mod p), (sum_y x1 y1 x2 k0 mod p).
  split; [reflexivity |]. split.
  - split; apply Z.mod_pos_bound; lia.
  - apply on_curve_eqm.
    destruct (sum_on_curve x1 y1 x2 k0) as [HX HY].
    apply (chord_on_curve p a b x1 y1 x2 y2 r (k0 mod p)); trivial.
    + now apply invert_Ok_eqm.
    + unfold k0. now rewrite !Zmod_eqm.
Qed.

(** Case 3 when [2 * y1] has no inverse: the tangent is vertical, and the
    error of [invert] leaves [add]. *)
Lemma add_double_vertical (x1 y1 : Z) :
  (2 * y1) mod p = 0 ->
  add C (Affine x1 y1) (Affine x1 y1) = raise NonInvertible.
Proof.
  intros Hy. rewrite add_affine, coefficient_affine.
  rewrite !Z.eqb_refl. simpl negb. simpl andb. cbv iota.
  now rewrite (invert_zero p _ Hy).
Qed.

(** Case 3 on a point of the curve with [2 * y1] invertible. *)
Lemma add_double (x1 y1 : Z) :
  Z.prime p ->
  is_on_curve (Affine x1 y1) = Ok true ->
  (2 * y1) mod p <> 0 ->
  exists X Y,
    add C (Affine x1 y1) (Affine x1 y1) = Ok (Affine X Y)
    /\ (0 <= X < p /\ 0 <= Y < p)
    /\ is_on_curve (Affine X Y) = Ok true.
Proof.
  intros Hp H1 Hy.
  pose proof (Z.prime_ge_2 _ Hp) as Hp2.
  apply on_curve_eqm in H1.
  destruct (invert_prime p _ Hp Hy) as [r Hr].
  rewrite add_affine, coefficient_affine.
  rewrite !Z.eqb_refl. simpl negb. simpl andb. cbv iota.
  rewrite Hr. simpl bind.
  set (k0 := ((3 * x1 ^ 2 + a) * r) mod p).
  exists (sum_x x1 x1 k0 mod p), (sum_y x1 y1 x1 k0 mod p).
  split; [reflexivity |]. split.
  - split; apply Z.mod_pos_bound; lia.
  - apply on_curve_eqm.
    destruct (sum_on_curve x1 y1 x1 k0) as [HX HY].
    apply (tangent_on_curve p a b x1 y1 r (k0 mod p)); trivial.
    + now apply invert_Ok_eqm.
    + unfold k0. rewrite !Zmod_eqm. apply eq_eqm. ring.
Qed.

(** *** Symmetry of the strategies *)

Lemma Zp_coefficient_symmetric (P Q : Point Z) :
  coefficient C P Q = coefficient C Q P.
Proof.
  unfold coefficient.
  rewrite (opt_eqb_sym (x Q) (x P)), (opt_eqb_sym (y Q) (y P)).
  destruct (opt_eqb (x P) (x Q)) eqn:Ex;
    [destruct (opt_eqb (y P) (y Q)) eqn:Ey |]; simpl negb; simpl andb;
    cbv iota.
  - apply opt_eqb_eq in Ex, Ey. destruct P, Q; simpl in *. now subst.
  - destruct P as [px [y1 |]], Q as [qx [y2 |]]; try reflexivity.
    cbn -[Z.pow Z.modulo Z.mul Z.add Z.sub Z.opp]. now rewrite (Z.add_comm y2 y1).
  - destruct P as [[x1 |] [y1 |]], Q as [[x2 |] [y2 |]]; try reflexivity.
    cbn -[Z.pow Z.modulo Z.mul Z.add Z.sub Z.opp]. replace (x1 - x2) with (- (x2 - x1)) by ring.
    rewrite invert_opp.
    destruct (ZpField.invert p (x2 - x1)) as [e | r]; [reflexivity |].
    cbn -[Z.pow Z.modulo Z.mul Z.add Z.sub Z.opp]. unfold ZpField.modulus. f_equal.
    change (eqm p ((y2 - y1) * r) ((y1 - y2) * (- r mod p))).
    rewrite (Zmod_eqm p (- r)). apply eq_eqm. ring.
Qed.

Lemma Zp_additive_symmetric (P Q : Point Z) (k : Z) :
  coefficient C P Q = Ok k ->
  _additive_point C P Q (normalize_element (_field C) k)
  = _additive_point C Q P (normalize_element (_field C) k).
Proof.
  unfold coefficient.
  destruct (opt_eqb (x P) (x Q)) eqn:Ex;
    [destruct (opt_eqb (y P) (y Q)) eqn:Ey |]; simpl negb; simpl andb;
    cbv iota.
  - apply opt_eqb_eq in Ex, Ey. destruct P, Q; simpl in *. now subst.
  - destruct P as [px [y1 |]], Q as [qx [y2 |]]; cbn -[Z.pow Z.modulo Z.mul Z.add Z.sub Z.opp]; try discriminate.
    destruct (_ =? _); discriminate.
  - destruct P as [[x1 |] [y1 |]], Q as [[x2 |] [y2 |]]; cbn -[Z.pow Z.modulo Z.mul Z.add Z.sub Z.opp];
      try discriminate.
    destruct (ZpField.invert p (x2 - x1)) as [e | r] eqn:Hr; cbn -[Z.pow Z.modulo Z.mul Z.add Z.sub Z.opp];
      [discriminate |].
    intros [= <-]. apply invert_Ok_eqm in Hr.
    unfold ZpField.modulus, ZpField.normalize_element.
    set (k := (((y2 - y1) * r) mod p) mod p).
    assert (Hk : k * (x2 - x1) == y2 - y1).
    { unfold k. rewrite !Zmod_eqm.
      transitivity ((y2 - y1) * ((x2 - x1) * r)); [apply eq_eqm; ring |].
      rewrite Hr. apply eq_eqm. ring. }
    replace (k ^ 2 - x2 - x1) with (k ^ 2 - x1 - x2) by ring.
    set (x3 := (k ^ 2 - x1 - x2) mod p).
    assert (Hy : y1 + k * (x3 - x1) == y2 + k * (x3 - x2)).
    { transitivity (y1 + k * (x3 - x2) + k * (x2 - x1));
        [apply eq_eqm; ring |].
      rewrite Hk. apply eq_eqm. ring. }
    unfold eqm in Hy. now rewrite Hy.
Qed.

Lemma Zp_add_comm (P Q : Point Z) : add C P Q = add C Q P.
Proof.
  apply add_symmetric.
  - exact Zp_coefficient_symmetric.
  - exact Zp_additive_symmetric.
Qed.

Lemma valid_infinity : valid infinity.
Proof. split; reflexivity. Qed.

Lemma valid_cases (P : Point Z) :
  valid P ->
  P = infinity
  \/ exists px py, P = Affine px py /\ (0 <= px < p /\ 0 <= py < p)
                   /\ is_on_curve (Affine px py) = Ok true.
Proof.
  destruct P as [[px |] [py |]]; intros [Hr Hc]; try discriminate.
  - right. exists px, py. split; [reflexivity |].
    split; [now apply reduced_affine | exact Hc].
  - now left.
Qed.

Lemma valid_affine (px py : Z) :
  0 <= px < p -> 0 <= py < p -> is_on_curve (Affine px py) = Ok true ->
  valid (Affine px py).
Proof. intros Hx Hy Hc. split; [now apply reduced_affine | exact Hc]. Qed.

(** [add] on valid points either returns a valid point, or it was asked to
    double a point with a vertical tangent and the error of [invert]
    leaves it. *)
Lemma add_valid_or_vertical (P Q : Point Z) :
  Z.prime p -> valid P -> valid Q ->
  (exists R, add C P Q = Ok R /\ valid R)
  \/ (P = Q /\ vertical_tangent P = true
      /\ add C P P = raise NonInvertible).
Proof.
  intros Hp HP HQ.
  destruct (valid_cases P HP) as [-> | [x1 [y1 [-> [[Hx1 Hy1] H1]]]]].
  { left. exists Q. now rewrite add_infinity_l. }
  destruct (valid_cases Q HQ) as [-> | [x2 [y2 [-> [[Hx2 Hy2] H2]]]]].
  { left. exists (Affine x1 y1). now rewrite add_infinity_r. }
  destruct (Z.eq_dec x1 x2) as [<- | Hx].
  - destruct (Z.eq_dec y1 y2) as [<- | Hy].
    + destruct (Z.eq_dec ((2 * y1) mod p) 0) as [E | E].
      * right. split; [reflexivity |]. split.
        -- unfold vertical_tangent. simpl. now apply Z.eqb_eq.
        -- now apply add_double_vertical.
      * left. destruct (add_double x1 y1 Hp H1 E) as [X [Y [HA [[HX HY] HC]]]].
        exists (Affine X Y). split; [exact HA | now apply valid_affine].
    + left. exists infinity. split; [| exact valid_infinity].
      now apply add_opposite.
  - left.
    destruct (add_distinct x1 y1 x2 y2 Hp Hx1 Hx2 H1 H2 Hx)
      as [X [Y [HA [[HX HY] HC]]]].
    exists (Affine X Y). split; [exact HA | now apply valid_affine].
Qed.

Lemma add_valid (P Q : Point Z) :
  Z.prime p -> valid P -> valid Q ->
  (exists R, add C P Q = Ok R /\ valid R)
  \/ (P = Q /\ add C P P = raise NonInvertible).
Proof.
  intros Hp HP HQ.
  destruct (add_valid_or_vertical P Q Hp HP HQ) as [HR | [HE [_ HF]]];
    [now left | now right].
Qed.

(** Doubling never yields the identity: case 3 builds a point or fails. *)
Lemma add_double_affine (x1 y1 : Z) (R : Point Z) :
  add C (Affine x1 y1) (Affine x1 y1) = Ok R -> is_infinite R = false.
Proof.
  rewrite add_affine, coefficient_affine, !Z.eqb_refl.
  simpl negb. simpl andb. cbv iota.
  destruct (ZpField.invert p (2 * y1)) as [e | r] eqn:E; simpl bind.
  - rewrite (invert_error p _ _ E). discriminate.
  - intros [= <-]. reflexivity.
Qed.

(** What the engine needs of [add] for [mul] to stay on the curve. *)
Lemma add_closed (P Q : Point Z) :
  Z.prime p -> valid P -> valid Q ->
  (exists R, add C P Q = Ok R /\ valid R)
  \/ (P = Q /\ exists e, add C P P = inl e).
Proof.
  intros Hp HP HQ.
  destruct (add_valid P Q Hp HP HQ) as [HR | [HE HF]];
    [now left | right; split; [exact HE | now exists NonInvertible]].
Qed.
End ZpGroupLaw.

(** ** The order search of the prime-field curve *)

Section PointOrder.
Variables p a b : Z.
Variable P : Point Z.

Local Abbreviation C := (ZpCurve.curve p a).
Local Abbreviation multiple n := (mul C P (Z.to_N n)).
Local Abbreviation loop := (ZpCurve.point_order_loop p a).

Lemma point_order_loop_unfold (fuel : nat) (n : Z) :
  loop fuel P n
  = (m <- multiple n ;;
     if negb (point_eqb m infinity) && (n <=? p) then
       match fuel with
       | O => Ok n
       | S fuel' => loop fuel' P (n + 1)
       end
     else Ok n).
Proof. destruct fuel; reflexivity. Qed.

Lemma point_eqb_infinity (R : Point Z) :
  point_eqb R infinity = false <-> R <> infinity.
Proof.
  rewrite <- point_eqb_eq. destruct (point_eqb R infinity); split; congruence.
Qed.

(** The loop does not run out of the fuel that [point_order] gives it:
    with fuel for the counters up to [p + 1], more fuel changes nothing. *)
Lemma point_order_loop_fuel (fuel fuel' : nat) (n : Z) :
  p + 1 - n <= Z.of_nat fuel -> p + 1 - n <= Z.of_nat fuel' ->
  loop fuel P n = loop fuel' P n.
Proof.
  revert fuel' n. induction fuel as [| fuel IH]; intros fuel' n Hf Hf';
    rewrite (point_order_loop_unfold 0), (point_order_loop_unfold fuel')
    || rewrite (point_order_loop_unfold (S fuel)),
               (point_order_loop_unfold fuel');
    destruct (multiple n) as [e | m]; simpl bind; try reflexivity.
  - replace (n <=? p) with false by lia. now rewrite andb_false_r.
  - destruct (negb (point_eqb m infinity) && (n <=? p)) eqn:Hc;
      [| reflexivity].
    apply andb_true_iff in Hc. destruct Hc as [_ Hle].
    apply Z.leb_le in Hle. destruct fuel' as [| fuel']; [lia |].
    apply IH; lia.
Qed.

(** The search returns the first counter at which the loop test fails. *)
Lemma point_order_loop_found (fuel : nat) (n0 n : Z) (R : Point Z) :
  n0 <= n <= p + 1 ->
  n - n0 <= Z.of_nat fuel ->
  (forall k, n0 <= k < n -> exists Rk, multiple k = Ok Rk /\ Rk <> infinity) ->
  multiple n = Ok R -> R = infinity \/ p < n ->
  loop fuel P n0 = Ok n.
Proof.
  revert n0. induction fuel as [| fuel IH]; intros n0 Hn Hf Hk HR Hstop;
    rewrite point_order_loop_unfold.
  - assert (n0 = n) as -> by lia. rewrite HR. simpl bind.
    destruct Hstop as [-> | Hlt].
    + reflexivity.
    + replace (n <=? p) with false by lia. now rewrite andb_false_r.
  - destruct (Z.eq_dec n0 n) as [-> | Hne].
    + rewrite HR. simpl bind. destruct Hstop as [-> | Hlt].
      * reflexivity.
      * replace (n <=? p) with false by lia. now rewrite andb_false_r.
    + destruct (Hk n0 ltac:(lia)) as [R0 [HR0 Hinf]].
      rewrite HR0. simpl bind.
      apply point_eqb_infinity in Hinf. rewrite Hinf.
      replace (n0 <=? p) with true by lia. simpl.
      apply IH; try lia; trivial.
      intros k Hk'. apply Hk. lia.
Qed.

(** Conversely, with fuel for the whole range the returned counter is the
    first at which the test fails, and every [mul] before it returned. *)
Lemma point_order_loop_sound (fuel : nat) (n0 n : Z) :
  p + 1 - n0 <= Z.of_nat fuel ->
  loop fuel P n0 = Ok n ->
  n0 <= n
  /\ (forall k, n0 <= k < n ->
        k <= p /\ exists Rk, multiple k = Ok Rk /\ Rk <> infinity)
  /\ exists R, multiple n = Ok R /\ (R = infinity \/ p < n).
Proof.
  revert n0. induction fuel as [| fuel IH]; intros n0 Hf;
    rewrite point_order_loop_unfold; intros HL;
    apply bind_Ok in HL; destruct HL as [R0 [HR0 HL]].
  - replace (n0 <=? p) with false in HL by lia.
    rewrite andb_false_r in HL. injection HL as <-.
    split; [lia |]. split; [intros k Hk; lia |].
    exists R0. split; [exact HR0 | right; lia].
  - destruct (negb (point_eqb R0 infinity) && (n0 <=? p)) eqn:Hc.
    + apply andb_true_iff in Hc. destruct Hc as [Hinf Hle].
      apply negb_true_iff, point_eqb_infinity in Hinf.
      apply Z.leb_le in Hle.
      destruct (IH (n0 + 1) ltac:(lia) HL) as [Hn [Hk HR]].
      split; [lia |]. split; [| exact HR].
      intros k Hk'. destruct (Z.eq_dec k n0) as [-> | Hne].
      * split; [exact Hle |]. now exists R0.
      * apply Hk. lia.
    + injection HL as <-.
      split; [lia |]. split; [intros k Hk; lia |].
      exists R0. split; [exact HR0 |].
      apply andb_false_iff in Hc. destruct Hc as [Hc | Hc].
      * left. apply negb_false_iff in Hc. now apply point_eqb_eq.
      * right. apply Z.leb_gt in Hc. exact Hc.
Qed.

(** [mul(P, 1)] never is the identity for a point that is not. *)
Lemma mul_one_not_infinity :
  P <> infinity -> multiple 1 <> Ok infinity.
Proof.
  intros HP.
  change (multiple 1)
    with (result <- add C infinity P ;; _ <- add C P P ;; Ok result).
  rewrite add_infinity_l. simpl bind.
  destruct (add C P P); unfold Ok; simpl; congruence.
Qed.
End PointOrder.

(** ** The binary fields *)

Section BinaryFieldProperties.
Context {T : Type} {EqT : Eqb T} {OpsT : PolynomialOps T}.
Variables (F : Field T) (one : T).
Hypothesis laws : BinaryField F one.
Local Open Scope poly_scope.

Local Abbreviation congruent := (GF2.congruent F).
Local Notation "u == v" := (GF2.congruent F u v) (at level 70).

Lemma poly_ring : ring_theory (zero F) one padd pmul padd (fun u => u) eq.
Proof.
  destruct laws. constructor; auto.
Qed.

Lemma pmul_zero (u : T) : zero F * u = zero F.
Proof.
  rewrite <- (padd_zero F one laws (zero F)) at 1.
  rewrite (pmul_distr F one laws). apply (padd_self F one laws).
Qed.

Local Abbreviation of_bit := (GF2.of_bit F one).

Lemma poly_morph :
  ring_morph (zero F) one padd pmul padd (fun u => u) eq
             false true xorb andb xorb (fun c => c) Bool.eqb of_bit.
Proof.
  pose proof (padd_zero F one laws) as Hz.
  pose proof (padd_self F one laws) as Hs.
  pose proof (pmul_one F one laws) as Ho.
  pose proof (padd_comm F one laws) as Ha.
  pose proof (pmul_comm F one laws) as Hm.
  constructor; try reflexivity.
  all: intros [] []; simpl; rewrite ?pmul_zero, ?Hs, ?Hz, ?Ho;
    try reflexivity; try discriminate.
  all: rewrite 1?Ha, 1?Hm, ?pmul_zero, ?Hz; reflexivity.
Qed.

Add Ring poly_ring_char2 : poly_ring (morphism poly_morph).

#[local] Instance congruent_Equivalence : Equivalence congruent.
Proof.
  unfold congruent. constructor.
  - intros u. reflexivity.
  - intros u v E. now symmetry.
  - intros u v w E1 E2. now transitivity (modulus F v).
Qed.

#[local] Instance congruent_add :
  Proper (congruent ==> congruent ==> congruent) padd.
Proof.
  unfold congruent. intros u u' Eu v v' Ev.
  rewrite (modulus_add F one laws u v), Eu, Ev.
  symmetry. apply (modulus_add F one laws).
Qed.

#[local] Instance congruent_mul :
  Proper (congruent ==> congruent ==> congruent) pmul.
Proof.
  unfold congruent. intros u u' Eu v v' Ev.
  rewrite (modulus_mul F one laws u v), Eu, Ev.
  symmetry. apply (modulus_mul F one laws).
Qed.

Lemma modulus_congruent (u : T) : modulus F u == u.
Proof. apply (modulus_idem F one laws). Qed.

Lemma eq_congruent (u v : T) : u = v -> u == v.
Proof. now intros ->. Qed.

(** In characteristic 2, two elements with sum zero are congruent. *)
Lemma congruent_sum (u v : T) : u + v == zero F -> u == v.
Proof.
  intros E. transitivity ((u + v) + v); [apply eq_congruent; ring |].
  rewrite E. apply eq_congruent. ring.
Qed.

Lemma congruent_integral (u v : T) :
  u * v == zero F -> u == zero F \/ v == zero F.
Proof. apply (modulus_integral F one laws). Qed.

Lemma invert_congruent (u r : T) : invert F u = Ok r -> u * r == one.
Proof. apply (invert_inverse F one laws). Qed.

Lemma eqb_congruent (u v : T) :
  eqb (modulus F u) (modulus F v) = true <-> u == v.
Proof. apply eqb_eq. Qed.

Lemma eqb_congruent_iff (u v u' v' : T) :
  (u == v <-> u' == v') ->
  eqb (modulus F u) (modulus F v) = eqb (modulus F u') (modulus F v').
Proof.
  intros E. rewrite <- !eqb_congruent in E.
  destruct (eqb (modulus F u) (modulus F v)),
           (eqb (modulus F u') (modulus F v')); intuition congruence.
Qed.
Lemma eqb_refl (u : T) : eqb u u = true.
Proof. now apply eqb_eq. Qed.

Lemma eqb_neq (u v : T) : u <> v -> eqb u v = false.
Proof.
  intros Hne. destruct (eqb u v) eqn:E; [| reflexivity].
  apply eqb_eq in E. contradiction.
Qed.

(** A coefficient that [add] has normalised is the one the strategy
    computed: the strategies end in [modulus]. *)
Lemma normalize_modulus (u : T) :
  normalize_element F (modulus F u) = modulus F u.
Proof. apply (normalize_reduced F one laws). Qed.

(** *** The non-supersingular form *)

Section NotSupersingular.
Variables a b c : T.
Local Abbreviation NS := (GF2NotSupersingularCurve.curve F a b).

Lemma NS_coefficient_affine (x1 y1 x2 y2 : T) :
  coefficient NS (Affine x1 y1) (Affine x2 y2)
  = if negb (eqb x1 x2) then
      inv <- invert F (x1 + x2) ;;
      Ok (modulus F ((y1 + y2) * inv))
    else if eqb x1 x2 && negb (eqb y1 y2) then
      if eqb (modulus F y2) (modulus F (a * x1 + y1))
      then raise InfinitePoint else raise CalculationError
    else
      inv <- invert F (a * x1) ;;
      Ok (modulus F ((x1 * x1 + a * y1) * inv)).
Proof. reflexivity. Qed.

(** Two points of the curve on one vertical line are mutual inverses:
    case 2 signals the identity. *)
Lemma NS_add_opposite (x1 y1 y2 : T) :
  modulus F y1 = y1 -> modulus F y2 = y2 ->
  GF2.NS_equation F a b c x1 y1 = true ->
  GF2.NS_equation F a b c x1 y2 = true ->
  y1 <> y2 ->
  add NS (Affine x1 y1) (Affine x1 y2) = Ok infinity.
Proof.
  intros R1 R2 E1 E2 Hne.
  apply eqb_congruent in E1, E2.
  assert (Hv : y2 == a * x1 + y1).
  { assert (Hprod : (y1 + y2) * (y1 + y2 + a * x1) == zero F).
    { transitivity ((y1 * y1 + a * x1 * y1) + (y2 * y2 + a * x1 * y2));
        [apply eq_congruent; ring |].
      rewrite E1, E2. apply eq_congruent. ring. }
    destruct (congruent_integral _ _ Hprod) as [Hd | Hd].
    - exfalso. apply Hne. rewrite <- R1, <- R2.
      apply congruent_sum. exact Hd.
    - apply congruent_sum. rewrite <- Hd. apply eq_congruent. ring. }
  unfold add. simpl is_infinite. cbv iota.
  rewrite NS_coefficient_affine, eqb_refl, (eqb_neq _ _ Hne).
  simpl negb. simpl andb. cbv iota.
  apply eqb_congruent in Hv. rewrite Hv. reflexivity.
Qed.

(** The chord through two points of the curve, in characteristic 2. *)
Lemma NS_chord_on_curve (x1 y1 x2 y2 r k X Y : T) :
  y1 * y1 + a * x1 * y1 == x1 * x1 * x1 + b * x1 * x1 + c ->
  y2 * y2 + a * x2 * y2 == x2 * x2 * x2 + b * x2 * x2 + c ->
  (x1 + x2) * r == one ->
  k == (y1 + y2) * r ->
  X == k * k + a * k + b + x1 + x2 ->
  Y == a * X + (y1 + k * (X + x1)) ->
  Y * Y + a * X * Y == X * X * X + b * X * X + c.
Proof.
  intros H1 H2 Hr Hk HX HY.
  assert (Hkd : k * (x1 + x2) == y1 + y2).
  { rewrite Hk.
    transitivity ((y1 + y2) * ((x1 + x2) * r)); [apply eq_congruent; ring |].
    rewrite Hr. apply eq_congruent. ring. }
  set (f := fun t => t * t * t + b * t * t + c
                     + (y1 + k * (t + x1)) * (y1 + k * (t + x1))
                     + a * t * (y1 + k * (t + x1))).
  assert (F1 : f x1 == zero F).
  { transitivity ((y1 * y1 + a * x1 * y1) + (x1 * x1 * x1 + b * x1 * x1 + c));
      [apply eq_congruent; unfold f; ring |].
    rewrite H1. apply eq_congruent. ring. }
  assert (F2 : f x2 == zero F).
  { assert (HL : y1 + k * (x2 + x1) == y2).
    { transitivity (y1 + k * (x1 + x2)); [apply eq_congruent; ring |].
      rewrite Hkd. apply eq_congruent. ring. }
    unfold f. rewrite HL.
    transitivity ((y2 * y2 + a * x2 * y2) + (x2 * x2 * x2 + b * x2 * x2 + c));
      [apply eq_congruent; ring |].
    rewrite H2. apply eq_congruent. ring. }
  set (X' := k * k + a * k + b + x1 + x2) in *.
  assert (FX : f X' == zero F).
  { transitivity (((x1 + x2) * r) * f X').
    - rewrite Hr. apply eq_congruent. ring.
    - transitivity (r * (f x2 * (X' + x1) + f x1 * (X' + x2)));
        [apply eq_congruent; unfold f, X'; ring |].
      rewrite F1, F2. apply eq_congruent. ring. }
  apply congruent_sum. rewrite HY, HX. rewrite <- FX.
  apply eq_congruent. unfold f. ring.
Qed.

(** The tangent at a point of the curve, in characteristic 2. *)
Lemma NS_tangent_on_curve (x1 y1 r k X Y : T) :
  y1 * y1 + a * x1 * y1 == x1 * x1 * x1 + b * x1 * x1 + c ->
  (a * x1) * r == one ->
  k == (x1 * x1 + a * y1) * r ->
  X == k * k + a * k + b + x1 + x1 ->
  Y == a * X + (y1 + k * (X + x1)) ->
  Y * Y + a * X * Y == X * X * X + b * X * X + c.
Proof.
  intros H1 Hr Hk HX HY.
  assert (Hkd : k * (a * x1) == x1 * x1 + a * y1).
  { rewrite Hk.
    transitivity ((x1 * x1 + a * y1) * ((a * x1) * r));
      [apply eq_congruent; ring |].
    rewrite Hr. apply eq_congruent. ring. }
  apply congruent_sum. rewrite HY, HX.
  set (X' := k * k + a * k + b + x1 + x1).
  transitivity (((y1 * y1 + a * x1 * y1) + (x1 * x1 * x1 + b * x1 * x1 + c))
                + (k * (a * x1) + (x1 * x1 + a * y1)) * (X' + x1));
    [apply eq_congruent; unfold X'; ring |].
  rewrite Hkd, H1. apply eq_congruent. ring.
Qed.

(** The point that [add] builds once a strategy has returned [k0]. *)
Lemma NS_add_coefficient (x1 y1 x2 y2 k0 : T) :
  coefficient NS (Affine x1 y1) (Affine x2 y2) = Ok (modulus F k0) ->
  let k := modulus F k0 in
  let x3 := modulus F (k * k + a * k + b + x1 + x2) in
  let y3 := modulus F (y1 + k * (x3 + x1)) in
  add NS (Affine x1 y1) (Affine x2 y2)
  = Ok (Affine x3 (modulus F (a * x3 + y3))).
Proof.
  intros Hc k x3 y3. unfold add. simpl is_infinite. cbv iota.
  rewrite Hc. cbn. rewrite !normalize_modulus. reflexivity.
Qed.

Lemma NS_valid_affine (px py : T) :
  GF2.NS_valid F a b c (Affine px py)
  <-> (modulus F px = px /\ modulus F py = py)
      /\ py * py + a * px * py == px * px * px + b * px * px + c.
Proof.
  unfold GF2.NS_valid, GF2.reduced, GF2.NS_equation. cbn.
  rewrite andb_true_iff, !eqb_eq. reflexivity.
Qed.

Lemma NS_valid_cases (P : Point T) :
  GF2.NS_valid F a b c P ->
  P = infinity
  \/ exists px py, P = Affine px py /\ GF2.NS_valid F a b c (Affine px py).
Proof.
  destruct P as [[px |] [py |]]; intros HP.
  - right. now exists px, py.
  - destruct HP as [Hr _]. discriminate.
  - destruct HP as [Hr _]. discriminate.
  - now left.
Qed.

Lemma NS_valid_infinity : GF2.NS_valid F a b c infinity.
Proof. split; [reflexivity | exact I]. Qed.

(** The point built from a coefficient [k] is valid as soon as the line
    of slope [k] through the first point meets the curve in it. *)
Lemma NS_valid_sum (x1 x2 y1 k : T) :
  let x3 := modulus F (k * k + a * k + b + x1 + x2) in
  let y3 := modulus F (y1 + k * (x3 + x1)) in
  (forall X Y : T,
     X == k * k + a * k + b + x1 + x2 ->
     Y == a * X + (y1 + k * (X + x1)) ->
     Y * Y + a * X * Y == X * X * X + b * X * X + c) ->
  GF2.NS_valid F a b c (Affine x3 (modulus F (a * x3 + y3))).
Proof.
  intros x3 y3 Hline. apply NS_valid_affine. split.
  - split; apply (modulus_idem F one laws).
  - apply Hline.
    + apply modulus_congruent.
    + rewrite (modulus_congruent (a * x3 + y3)).
      apply congruent_add; [reflexivity | apply modulus_congruent].
Qed.

(** [add] on valid points either returns a valid point or was asked for
    a doubling that raised. *)
Lemma NS_add_closed (P Q : Point T) :
  GF2.NS_valid F a b c P -> GF2.NS_valid F a b c Q ->
  (exists R, add NS P Q = Ok R /\ GF2.NS_valid F a b c R)
  \/ (P = Q /\ exists e, add NS P P = inl e).
Proof.
  intros HP HQ.
  destruct (NS_valid_cases P HP) as [-> | [x1 [y1 [-> HP1]]]].
  { left. exists Q. now rewrite add_infinity_l. }
  destruct (NS_valid_cases Q HQ) as [-> | [x2 [y2 [-> HQ1]]]].
  { left. exists (Affine x1 y1). now rewrite add_infinity_r. }
  apply NS_valid_affine in HP1, HQ1.
  destruct HP1 as [[Rx1 Ry1] H1], HQ1 as [[Rx2 Ry2] H2].
  destruct (eqb x1 x2) eqn:Ex; [destruct (eqb y1 y2) eqn:Ey |].
  - (* the same point: case 3 *)
    apply eqb_eq in Ex, Ey. subst x2 y2.
    pose proof (NS_coefficient_affine x1 y1 x1 y1) as Hc.
    rewrite !eqb_refl in Hc. simpl negb in Hc. simpl andb in Hc.
    cbv iota in Hc.
    destruct (invert F (a * x1)) as [e | r] eqn:Hr; simpl bind in Hc.
    + destruct (add NS (Affine x1 y1) (Affine x1 y1)) as [e' | R] eqn:HA.
      * right. split; [reflexivity | now exists e'].
      * left. exists R. split; [reflexivity |].
        unfold add in HA. simpl is_infinite in HA. cbv iota in HA.
        rewrite Hc in HA. destruct e; try discriminate.
        injection HA as <-. exact NS_valid_infinity.
    + left. rewrite (NS_add_coefficient x1 y1 x1 y1 _ Hc).
      eexists. split; [reflexivity |].
      apply NS_valid_sum. intros X Y HX HY.
      apply invert_congruent in Hr.
      apply (NS_tangent_on_curve x1 y1 r
               (modulus F ((x1 * x1 + a * y1) * r))); trivial.
      apply modulus_congruent.
  - (* one vertical line: case 2 *)
    apply eqb_eq in Ex. subst x2. left. exists infinity.
    split; [| exact NS_valid_infinity].
    apply NS_add_opposite; trivial.
    + now apply eqb_congruent.
    + now apply eqb_congruent.
    + intros ->. rewrite eqb_refl in Ey. discriminate.
  - (* different abscissas: case 1 *)
    left.
    assert (Hd : modulus F (x1 + x2) <> modulus F (zero F)).
    { intros E. apply congruent_sum in E. unfold GF2.congruent in E.
      rewrite Rx1, Rx2 in E. subst x2. rewrite eqb_refl in Ex. discriminate. }
    destruct (invert_total F one laws _ Hd) as [r Hr].
    pose proof (NS_coefficient_affine x1 y1 x2 y2) as Hc.
    rewrite Ex, Hr in Hc. simpl negb in Hc. cbv iota in Hc. simpl bind in Hc.
    rewrite (NS_add_coefficient x1 y1 x2 y2 _ Hc).
    eexists. split; [reflexivity |].
    apply NS_valid_sum. intros X Y HX HY.
    apply invert_congruent in Hr.
    apply (NS_chord_on_curve x1 y1 x2 y2 r
             (modulus F ((y1 + y2) * r))); trivial.
    apply modulus_congruent.
Qed.

Lemma NS_coefficient_symmetric (P Q : Point T) :
  coefficient NS P Q = coefficient NS Q P.
Proof.
  unfold coefficient.
  rewrite (opt_eqb_sym (x Q) (x P)), (opt_eqb_sym (y Q) (y P)).
  destruct (opt_eqb (x P) (x Q)) eqn:Ex; simpl negb; simpl andb; cbv iota.
  - destruct (opt_eqb (y P) (y Q)) eqn:Ey; simpl negb; cbv iota.
    + apply opt_eqb_eq in Ex, Ey. destruct P, Q; simpl in *. now subst.
    + apply opt_eqb_eq in Ex.
      destruct P as [px [y1 |]], Q as [qx [y2 |]]; simpl in Ex; subst qx;
        destruct px as [x1 |]; try reflexivity.
      cbn.
      rewrite (eqb_congruent_iff (y2) (a * x1 + y1) (y1) (a * x1 + y2));
        [reflexivity |].
      split; intros E; rewrite E; apply eq_congruent; ring.
  - destruct P as [[x1 |] [y1 |]], Q as [[x2 |] [y2 |]]; try reflexivity.
    cbn. now rewrite (padd_comm F one laws x2 x1), (padd_comm F one laws y2 y1).
Qed.

Lemma NS_additive_symmetric (P Q : Point T) (k : T) :
  coefficient NS P Q = Ok k ->
  _additive_point NS P Q (normalize_element F k)
  = _additive_point NS Q P (normalize_element F k).
Proof.
  unfold coefficient.
  destruct (opt_eqb (x P) (x Q)) eqn:Ex; simpl negb; simpl andb; cbv iota.
  - destruct (opt_eqb (y P) (y Q)) eqn:Ey; simpl negb; cbv iota.
    + apply opt_eqb_eq in Ex, Ey. destruct P, Q; simpl in *. now subst.
    + destruct P as [[x1 |] [y1 |]], Q as [[x2 |] [y2 |]]; cbn;
        try discriminate.
      destruct (eqb _ _); discriminate.
  - destruct P as [[x1 |] [y1 |]], Q as [[x2 |] [y2 |]]; cbn;
      try discriminate.
    destruct (invert F (x1 + x2)) as [e | r] eqn:Hr; cbn; [discriminate |].
    intros [= <-]. rewrite normalize_modulus.
    set (k := modulus F ((y1 + y2) * r)).
    apply invert_congruent in Hr.
    assert (Hk : k * (x1 + x2) == y1 + y2).
    { unfold k. rewrite modulus_congruent.
      transitivity ((y1 + y2) * ((x1 + x2) * r)); [apply eq_congruent; ring |].
      rewrite Hr. apply eq_congruent. ring. }
    replace (k * k + a * k + b + x2 + x1) with (k * k + a * k + b + x1 + x2)
      by ring.
    set (x3 := modulus F (k * k + a * k + b + x1 + x2)).
    assert (Hy : modulus F (y1 + k * (x3 + x1)) = modulus F (y2 + k * (x3 + x2))).
    { change (y1 + k * (x3 + x1) == y2 + k * (x3 + x2)).
      apply congruent_sum.
      transitivity (k * (x1 + x2) + (y1 + y2)); [apply eq_congruent; ring |].
      rewrite Hk. apply eq_congruent. ring. }
    now rewrite Hy.
Qed.

Lemma NS_add_comm (P Q : Point T) : add NS P Q = add NS Q P.
Proof.
  apply add_symmetric.
  - exact NS_coefficient_symmetric.
  - exact NS_additive_symmetric.
Qed.
End NotSupersingular.

(** *** The supersingular form *)

Section Supersingular.
Variables a b c : T.
Local Abbreviation SS := (GF2SupersingularCurve.curve F a b).

Lemma SS_coefficient_affine (x1 y1 x2 y2 : T) :
  coefficient SS (Affine x1 y1) (Affine x2 y2)
  = if negb (eqb x1 x2) then
      inv <- invert F (x1 + x2) ;;
      Ok (modulus F ((y1 + y2) * inv))
    else if eqb x1 x2 && negb (eqb y1 y2) then
      if eqb (modulus F y2) (modulus F (a + y1))
      then raise InfinitePoint else raise CalculationError
    else if eqb (modulus F a) (zero F) then raise CalculationError
    else
      inv <- invert F a ;;
      Ok (modulus F ((x1 * x1 + b) * inv)).
Proof. reflexivity. Qed.

Lemma SS_add_opposite (x1 y1 y2 : T) :
  modulus F y1 = y1 -> modulus F y2 = y2 ->
  GF2.SS_equation F a b c x1 y1 = true ->
  GF2.SS_equation F a b c x1 y2 = true ->
  y1 <> y2 ->
  add SS (Affine x1 y1) (Affine x1 y2) = Ok infinity.
Proof.
  intros R1 R2 E1 E2 Hne.
  apply eqb_congruent in E1, E2.
  assert (Hprod : (y1 + y2) * (y2 + (a + y1)) == zero F).
  { transitivity ((y1 * y1 + a * y1) + (y2 * y2 + a * y2));
      [apply eq_congruent; ring |].
    rewrite E1, E2. apply eq_congruent. ring. }
  unfold add. simpl is_infinite. cbv iota.
  rewrite SS_coefficient_affine, eqb_refl, (eqb_neq _ _ Hne).
  simpl negb. simpl andb. cbv iota.
  destruct (congruent_integral _ _ Hprod) as [Hd | Hd].
  - exfalso. apply Hne. rewrite <- R1, <- R2. now apply congruent_sum.
  - apply congruent_sum, eqb_congruent in Hd. now rewrite Hd.
Qed.

Lemma SS_chord_on_curve (x1 y1 x2 y2 r k X Y : T) :
  y1 * y1 + a * y1 == x1 * x1 * x1 + b * x1 + c ->
  y2 * y2 + a * y2 == x2 * x2 * x2 + b * x2 + c ->
  (x1 + x2) * r == one ->
  k == (y1 + y2) * r ->
  X == k * k + x1 + x2 ->
  Y == a + (y1 + k * (X + x1)) ->
  Y * Y + a * Y == X * X * X + b * X + c.
Proof.
  intros H1 H2 Hr Hk HX HY.
  assert (HL : y1 + k * (x2 + x1) == y2).
  { rewrite Hk.
    transitivity (y1 + (y1 + y2) * ((x1 + x2) * r));
      [apply eq_congruent; ring |].
    rewrite Hr. apply eq_congruent. ring. }
  set (line := fun t => y1 + k * (t + x1)).
  set (f := fun t => t * t * t + b * t + c + line t * line t + a * line t).
  assert (F1 : f x1 == zero F).
  { transitivity ((y1 * y1 + a * y1) + (x1 * x1 * x1 + b * x1 + c));
      [apply eq_congruent; unfold f, line; ring |].
    rewrite H1. apply eq_congruent. ring. }
  assert (F2 : f x2 == zero F).
  { unfold f, line. rewrite HL.
    transitivity ((y2 * y2 + a * y2) + (x2 * x2 * x2 + b * x2 + c));
      [apply eq_congruent; ring |].
    rewrite H2. apply eq_congruent. ring. }
  set (X' := k * k + x1 + x2) in *.
  assert (FX : (x1 + x2) * f X' == zero F).
  { transitivity (f x2 * (X' + x1) + f x1 * (X' + x2));
      [apply eq_congruent; unfold f, line, X'; ring |].
    rewrite F1, F2. apply eq_congruent. ring. }
  apply congruent_sum. rewrite HY, HX. fold X'.
  transitivity (r * ((x1 + x2) * f X')).
  - transitivity (((x1 + x2) * r) * f X');
      [| apply eq_congruent; ring].
    rewrite Hr. apply eq_congruent. unfold f, line. ring.
  - rewrite FX. apply eq_congruent. ring.
Qed.

Lemma SS_tangent_on_curve (x1 y1 r k X Y : T) :
  y1 * y1 + a * y1 == x1 * x1 * x1 + b * x1 + c ->
  a * r == one ->
  k == (x1 * x1 + b) * r ->
  X == k * k + x1 + x1 ->
  Y == a + (y1 + k * (X + x1)) ->
  Y * Y + a * Y == X * X * X + b * X + c.
Proof.
  intros H1 Hr Hk HX HY.
  assert (Hka : k * a == x1 * x1 + b).
  { rewrite Hk.
    transitivity ((x1 * x1 + b) * (a * r)); [apply eq_congruent; ring |].
    rewrite Hr. apply eq_congruent. ring. }
  apply congruent_sum. rewrite HY, HX.
  set (X' := k * k + x1 + x1).
  transitivity (((y1 * y1 + a * y1) + (x1 * x1 * x1 + b * x1 + c))
                + (k * a + (x1 * x1 + b)) * (X' + x1));
    [apply eq_congruent; unfold X'; ring |].
  rewrite Hka, H1. apply eq_congruent. ring.
Qed.

Lemma SS_add_coefficient (x1 y1 x2 y2 k0 : T) :
  coefficient SS (Affine x1 y1) (Affine x2 y2) = Ok (modulus F k0) ->
  let k := modulus F k0 in
  let x3 := modulus F (k * k + x1 + x2) in
  let y3 := modulus F (y1 + k * (x3 + x1)) in
  add SS (Affine x1 y1) (Affine x2 y2)
  = Ok (Affine x3 (modulus F (a + y3))).
Proof.
  intros Hc k x3 y3. unfold add. simpl is_infinite. cbv iota.
  rewrite Hc. cbn. rewrite !normalize_modulus. reflexivity.
Qed.

Lemma SS_valid_affine (px py : T) :
  GF2.SS_valid F a b c (Affine px py)
  <-> (modulus F px = px /\ modulus F py = py)
      /\ py * py + a * py == px * px * px + b * px + c.
Proof.
  unfold GF2.SS_valid, GF2.reduced, GF2.SS_equation. cbn.
  rewrite andb_true_iff, !eqb_eq. reflexivity.
Qed.

Lemma SS_valid_cases (P : Point T) :
  GF2.SS_valid F a b c P ->
  P = infinity
  \/ exists px py, P = Affine px py /\ GF2.SS_valid F a b c (Affine px py).
Proof.
  destruct P as [[px |] [py |]]; intros HP.
  - right. now exists px, py.
  - destruct HP as [Hr _]. discriminate.
  - destruct HP as [Hr _]. discriminate.
  - now left.
Qed.

Lemma SS_valid_infinity : GF2.SS_valid F a b c infinity.
Proof. split; [reflexivity | exact I]. Qed.

Lemma SS_valid_sum (x1 x2 y1 k : T) :
  let x3 := modulus F (k * k + x1 + x2) in
  let y3 := modulus F (y1 + k * (x3 + x1)) in
  (forall X Y : T,
     X == k * k + x1 + x2 ->
     Y == a + (y1 + k * (X + x1)) ->
     Y * Y + a * Y == X * X * X + b * X + c) ->
  GF2.SS_valid F a b c (Affine x3 (modulus F (a + y3))).
Proof.
  intros x3 y3 Hline. apply SS_valid_affine. split.
  - split; apply (modulus_idem F one laws).
  - apply Hline.
    + apply modulus_congruent.
    + rewrite (modulus_congruent (a + y3)).
      apply congruent_add; [reflexivity | apply modulus_congruent].
Qed.

(** [add] on valid points either returns a valid point or was asked for
    a doubling that raised (as every doubling does when [a] reduces to
    zero). *)
Lemma SS_add_closed (P Q : Point T) :
  GF2.SS_valid F a b c P -> GF2.SS_valid F a b c Q ->
  (exists R, add SS P Q = Ok R /\ GF2.SS_valid F a b c R)
  \/ (P = Q /\ exists e, add SS P P = inl e).
Proof.
  intros HP HQ.
  destruct (SS_valid_cases P HP) as [-> | [x1 [y1 [-> HP1]]]].
  { left. exists Q. now rewrite add_infinity_l. }
  destruct (SS_valid_cases Q HQ) as [-> | [x2 [y2 [-> HQ1]]]].
  { left. exists (Affine x1 y1). now rewrite add_infinity_r. }
  apply SS_valid_affine in HP1, HQ1.
  destruct HP1 as [[Rx1 Ry1] H1], HQ1 as [[Rx2 Ry2] H2].
  destruct (eqb x1 x2) eqn:Ex; [destruct (eqb y1 y2) eqn:Ey |].
  - apply eqb_eq in Ex, Ey. subst x2 y2.
    destruct (add SS (Affine x1 y1) (Affine x1 y1)) as [e' | R] eqn:HA;
      [right; split; [reflexivity | now exists e'] | left].
    exists R. split; [reflexivity |].
    pose proof (SS_coefficient_affine x1 y1 x1 y1) as Hc.
    rewrite !eqb_refl in Hc. simpl negb in Hc. simpl andb in Hc.
    cbv iota in Hc.
    destruct (eqb (modulus F a) (zero F)).
    { unfold add in HA. simpl is_infinite in HA. cbv iota in HA.
      rewrite Hc in HA. discriminate. }
    destruct (invert F a) as [e | r] eqn:Hr; simpl bind in Hc.
    + unfold add in HA. simpl is_infinite in HA. cbv iota in HA.
      rewrite Hc in HA. destruct e; try discriminate.
      injection HA as <-. exact SS_valid_infinity.
    + rewrite (SS_add_coefficient x1 y1 x1 y1 _ Hc) in HA.
      injection HA as <-.
      apply SS_valid_sum. intros X Y HX HY.
      apply invert_congruent in Hr.
      apply (SS_tangent_on_curve x1 y1 r
               (modulus F ((x1 * x1 + b) * r))); trivial.
      apply modulus_congruent.
  - apply eqb_eq in Ex. subst x2. left. exists infinity.
    split; [| exact SS_valid_infinity].
    apply SS_add_opposite; trivial.
    + now apply eqb_congruent.
    + now apply eqb_congruent.
    + intros ->. rewrite eqb_refl in Ey. discriminate.
  - left.
    assert (Hd : modulus F (x1 + x2) <> modulus F (zero F)).
    { intros E. apply congruent_sum in E. unfold GF2.congruent in E.
      rewrite Rx1, Rx2 in E. subst x2. rewrite eqb_refl in Ex. discriminate. }
    destruct (invert_total F one laws _ Hd) as [r Hr].
    pose proof (SS_coefficient_affine x1 y1 x2 y2) as Hc.
    rewrite Ex, Hr in Hc. simpl negb in Hc. cbv iota in Hc. simpl bind in Hc.
    rewrite (SS_add_coefficient x1 y1 x2 y2 _ Hc).
    eexists. split; [reflexivity |].
    apply SS_valid_sum. intros X Y HX HY.
    apply invert_congruent in Hr.
    apply (SS_chord_on_curve x1 y1 x2 y2 r
             (modulus F ((y1 + y2) * r))); trivial.
    apply modulus_congruent.
Qed.

Lemma SS_coefficient_symmetric (P Q : Point T) :
  coefficient SS P Q = coefficient SS Q P.
Proof.
  unfold coefficient.
  rewrite (opt_eqb_sym (x Q) (x P)), (opt_eqb_sym (y Q) (y P)).
  destruct (opt_eqb (x P) (x Q)) eqn:Ex;
    [destruct (opt_eqb (y P) (y Q)) eqn:Ey |]; simpl negb; simpl andb;
    cbv iota.
  - apply opt_eqb_eq in Ex, Ey. destruct P, Q; simpl in *. now subst.
  - destruct P as [px [y1 |]], Q as [qx [y2 |]]; try reflexivity.
    cbn.
    rewrite (eqb_congruent_iff y2 (a + y1) y1 (a + y2)); [reflexivity |].
    split; intros E; rewrite E; apply eq_congruent; ring.
  - destruct P as [[x1 |] [y1 |]], Q as [[x2 |] [y2 |]]; try reflexivity.
    cbn. now rewrite (padd_comm F one laws x2 x1), (padd_comm F one laws y2 y1).
Qed.

Lemma SS_additive_symmetric (P Q : Point T) (k : T) :
  coefficient SS P Q = Ok k ->
  _additive_point SS P Q (normalize_element F k)
  = _additive_point SS Q P (normalize_element F k).
Proof.
  unfold coefficient.
  destruct (opt_eqb (x P) (x Q)) eqn:Ex;
    [destruct (opt_eqb (y P) (y Q)) eqn:Ey |]; simpl negb; simpl andb;
    cbv iota.
  - apply opt_eqb_eq in Ex, Ey. destruct P, Q; simpl in *. now subst.
  - destruct P as [px [y1 |]], Q as [qx [y2 |]]; cbn; try discriminate.
    destruct (eqb _ _); discriminate.
  - destruct P as [[x1 |] [y1 |]], Q as [[x2 |] [y2 |]]; cbn;
      try discriminate.
    destruct (invert F (x1 + x2)) as [e | r] eqn:Hr; cbn; [discriminate |].
    intros [= <-]. rewrite normalize_modulus.
    set (k := modulus F ((y1 + y2) * r)).
    apply invert_congruent in Hr.
    assert (Hk : (y1 + y2) + k * (x1 + x2) == zero F).
    { unfold k. rewrite modulus_congruent.
      transitivity ((y1 + y2) + (y1 + y2) * ((x1 + x2) * r));
        [apply eq_congruent; ring |].
      rewrite Hr. apply eq_congruent. ring. }
    replace (k * k + x2 + x1) with (k * k + x1 + x2) by ring.
    set (x3 := modulus F (k * k + x1 + x2)).
    assert (Hy : y1 + k * (x3 + x1) == y2 + k * (x3 + x2)).
    { apply congruent_sum. rewrite <- Hk. apply eq_congruent. ring. }
    unfold congruent in Hy. now rewrite Hy.
Qed.

Lemma SS_add_comm (P Q : Point T) : add SS P Q = add SS Q P.
Proof.
  apply add_symmetric.
  - exact SS_coefficient_symmetric.
  - exact SS_additive_symmetric.
Qed.
End Supersingular.
End BinaryFieldProperties.

(** ** The enumeration of the prime-field curve *)

Lemma NoDup_range (n : Z) : NoDup (range n).
Proof.
  unfold range. apply NoDup_map_NoDup_ForallPairs; [| apply seq_NoDup].
  intros i j _ _ E. now apply Nat2Z.inj.
Qed.

Lemma NoDup_list_prod {A B : Type} (l : list A) (l' : list B) :
  NoDup l -> NoDup l' -> NoDup (list_prod l l').
Proof.
  intros Hl Hl'. induction Hl as [| u l Hu Hl IH]; simpl; [constructor |].
  apply NoDup_app.
  - apply NoDup_map_NoDup_ForallPairs; [| exact Hl'].
    intros i j _ _ E. now injection E.
  - exact IH.
  - intros [u' v] Hin Hin'. apply in_map_iff in Hin.
    destruct Hin as [w [[= <- <-] _]].
    apply in_prod_iff in Hin'. now destruct Hin'.
Qed.

Section Enumeration.
Variables p a b : Z.

Local Abbreviation is_on_curve := (ZpCurve.is_on_curve p a b).
Local Abbreviation satisfies := (Zp.satisfies p a b).
Local Abbreviation point_of := Zp.point_of.
Local Abbreviation remaining := (Zp.remaining p a b).

Lemma resume_yields (rest : list (Z * Z)) :
  exists point g,
    ZpCurve.resume p a b rest = Ok (point, g)
    /\ remaining (ZpCurve.Scanning rest) = point :: remaining g.
Proof.
  induction rest as [| [cx cy] rest IH].
  - exists infinity, ZpCurve.Exhausted. now split.
  - cbn [ZpCurve.resume].
    change (is_on_curve (mkPoint (Some cx) (Some cy)))
      with (Ok (satisfies (cx, cy))).
    cbn [bind Ok remaining filter].
    destruct (satisfies (cx, cy)).
    + exists (Affine cx cy), (ZpCurve.Scanning rest). now split.
    + exact IH.
Qed.

(** Iterating a generator to its end gives what it has to yield. *)
Lemma collect_remaining (fuel : nat) (g : ZpCurve.generator) :
  (length (remaining g) < fuel)%nat ->
  ZpCurve.collect p a b fuel g = Ok (Some (remaining g)).
Proof.
  revert g. induction fuel as [| fuel IH]; intros g Hf; [lia |].
  destruct g as [rest |]; cbn [ZpCurve.collect ZpCurve.next].
  - destruct (resume_yields rest) as [point [g' [Hr Hrem]]].
    rewrite Hr. cbn [bind Ok]. rewrite Hrem in Hf |- *. simpl in Hf.
    rewrite IH by lia. reflexivity.
  - reflexivity.
Qed.

Lemma remaining_all_points :
  remaining (ZpCurve.all_points p)
  = map point_of (filter satisfies (list_prod (range p) (range p)))
    ++ [infinity].
Proof. reflexivity. Qed.

Lemma In_remaining_affine (cx cy : Z) :
  In (Affine cx cy) (remaining (ZpCurve.all_points p))
  <-> (0 <= cx < p /\ 0 <= cy < p) /\ is_on_curve (Affine cx cy) = Ok true.
Proof.
  rewrite remaining_all_points, in_app_iff, in_map_iff. split.
  - intros [[[ux uy] [[= -> ->] Hin]] | [[=] | []]].
    apply filter_In in Hin. destruct Hin as [Hin Hs].
    apply in_prod_iff in Hin. rewrite !range_In in Hin.
    split; [exact Hin |]. unfold satisfies in Hs. cbn [fst snd] in Hs.
    rewrite (is_on_curve_affine p a b). now rewrite Hs.
  - intros [Hr Hc]. left. exists (cx, cy). split; [reflexivity |].
    apply filter_In. split.
    + apply in_prod_iff. now rewrite !range_In.
    + rewrite (is_on_curve_affine p a b) in Hc. now injection Hc.
Qed.

Lemma NoDup_remaining : NoDup (remaining (ZpCurve.all_points p)).
Proof.
  rewrite remaining_all_points. apply NoDup_app.
  - apply NoDup_map_NoDup_ForallPairs.
    + intros [ux uy] [vx vy] _ _ [= -> ->]. reflexivity.
    + apply NoDup_filter, NoDup_list_prod; apply NoDup_range.
  - repeat constructor. intros [].
  - intros point Hin [<- | []]. apply in_map_iff in Hin.
    destruct Hin as [[ux uy] [[=] _]].
Qed.
End Enumeration.

(** ** GF(4) is a binary field *)

Lemma GF4_BinaryField : BinaryField GF4.field GF4.one.
Proof.
  constructor; try reflexivity.
  - intros [[] []] [[] []]; reflexivity.
  - intros [[] []] [[] []] [[] []]; reflexivity.
  - intros [[] []]; reflexivity.
  - intros [[] []]; reflexivity.
  - intros [[] []] [[] []]; reflexivity.
  - intros [[] []] [[] []] [[] []]; reflexivity.
  - intros [[] []]; reflexivity.
  - intros [[] []] [[] []] [[] []]; reflexivity.
  - intros [[] []] [[] []]; cbn; intros E; try discriminate; auto.
  - intros [[] []] r; cbn; intros [= <-]; reflexivity.
  - intros [[] []]; cbn; intros Hu; try contradiction; eauto.
Qed.

Lemma prime_5 : Z.prime 5.
Proof.
  split; [lia |]. intros n Hn [q Hq].
  assert (Hc : n = 2 \/ n = 3 \/ n = 4) by lia.
  destruct Hc as [-> | [-> | ->]]; lia.
Qed.

Lemma prime_17 : Z.prime 17.
Proof.
  split; [lia |]. intros n Hn [q Hq].
  assert (Hq' : 0 < q < 17) by nia.
  assert (Hc : n = 2 \/ n = 3 \/ n = 4 \/ n = 5 \/ n = 6 \/ n = 7 \/ n = 8
               \/ n = 9 \/ n = 10 \/ n = 11 \/ n = 12 \/ n = 13 \/ n = 14
               \/ n = 15 \/ n = 16) by lia.
  repeat (destruct Hc as [-> | Hc]; [lia |]). lia.
Qed.

Lemma prime_7 : Z.prime 7.
Proof.
  split; [lia |]. intros n Hn [q Hq].
  assert (Hc : n = 2 \/ n = 3 \/ n = 4 \/ n = 5 \/ n = 6) by lia.
  repeat (destruct Hc as [-> | Hc]; [lia |]). lia.
Qed.

(** ** Errors that leave the public operations *)

Lemma Zp_additive_no_signal (p a : Z) (P Q : Point Z) (k : Z) :
  _additive_point (ZpCurve.curve p a) P Q k <> raise InfinitePoint.
Proof. destruct P as [[x1 |] [y1 |]], Q as [[x2 |] [y2 |]]; discriminate. Qed.

Lemma Zp_add_no_signal (p a : Z) (P Q : Point Z) :
  add (ZpCurve.curve p a) P Q <> raise InfinitePoint.
Proof. apply add_catches_InfinitePoint, Zp_additive_no_signal. Qed.

Lemma Zp_mul_no_signal (p a : Z) (P : Point Z) (n : N) :
  mul (ZpCurve.curve p a) P n <> raise InfinitePoint.
Proof. apply mul_catches_InfinitePoint, Zp_add_no_signal. Qed.

Lemma is_on_curve_error (p a b : Z) (P : Point Z) (e : error) :
  ZpCurve.is_on_curve p a b P = inl e -> e = TypeError.
Proof.
  destruct P as [[px |] [py |]]; cbn; intros [=]; congruence.
Qed.

Lemma point_order_loop_no_signal (p a : Z) (P : Point Z) (fuel : nat) (n : Z) :
  ZpCurve.point_order_loop p a fuel P n <> raise InfinitePoint.
Proof.
  revert n. induction fuel as [| fuel IH]; intros n;
    rewrite point_order_loop_unfold;
    pose proof (Zp_mul_no_signal p a P (Z.to_N n)) as Hm;
    destruct (mul (ZpCurve.curve p a) P (Z.to_N n)) as [e | R]; simpl;
    try (intros [= ->]; now apply Hm).
  - destruct (_ && _); discriminate.
  - destruct (_ && _); [apply IH | discriminate].
Qed.

(** [point_order] raises [InfinitePoint] itself, for the identity point,
    and in no other case. *)
Lemma point_order_signal (p a b : Z) (P : Point Z) :
  ZpCurve.point_order p a b P = raise InfinitePoint <-> P = infinity.
Proof.
  unfold ZpCurve.point_order.
  destruct (point_eqb P infinity) eqn:E.
  - apply point_eqb_eq in E. tauto.
  - apply point_eqb_infinity in E. split; [| contradiction].
    intros HS. exfalso.
    destruct (ZpCurve.is_on_curve p a b P) as [e | on] eqn:Hc; simpl in HS.
    + apply is_on_curve_error in Hc. subst e. discriminate.
    + destruct on; simpl in HS; [| discriminate].
      pose proof (point_order_loop_no_signal p a P
                    (Z.to_nat (ZpField._order p)) 2) as HL.
      destruct (ZpCurve.point_order_loop p a _ P 2) as [e | n]; simpl in HS.
      * contradiction.
      * destruct (n >? ZpField._order p); discriminate.
Qed.

Lemma point_order_on_curve (p a b : Z) (P : Point Z) :
  P <> infinity -> ZpCurve.is_on_curve p a b P = Ok true ->
  ZpCurve.point_order p a b P
  = (n <- ZpCurve.point_order_loop p a (Z.to_nat p) P 2 ;;
     if n >? p then raise IncorrectOrder else Ok n).
Proof.
  intros HP Hc. unfold ZpCurve.point_order.
  apply point_eqb_infinity in HP. rewrite HP, Hc. reflexivity.
Qed.

Section BinarySignals.
Context {T : Type} {EqT : Eqb T} {OpsT : PolynomialOps T}.
Variable F : Field T.
Variables a b : T.

Lemma NS_add_no_signal (P Q : Point T) :
  add (GF2NotSupersingularCurve.curve F a b) P Q <> raise InfinitePoint.
Proof.
  apply add_catches_InfinitePoint. intros P' Q' k.
  destruct P' as [[x1 |] [y1 |]], Q' as [[x2 |] [y2 |]]; discriminate.
Qed.

Lemma SS_add_no_signal (P Q : Point T) :
  add (GF2SupersingularCurve.curve F a b) P Q <> raise InfinitePoint.
Proof.
  apply add_catches_InfinitePoint. intros P' Q' k.
  destruct P' as [[x1 |] [y1 |]], Q' as [[x2 |] [y2 |]]; discriminate.
Qed.
End BinarySignals.

(** * The claims of the specification *)

(** C1 (as the code has it).  Two points of the curve with the same [x]
    and different [y] add up to the identity, and no error is raised,
    when their coordinates are reduced field elements: on the prime-field
    curve for a prime [p] and ordinates in [range(p)]; on the binary
    curves over a binary field, for ordinates that [modulus] keeps and
    points of the curve whose group law the variant computes
    ([y^2 + a x y = x^3 + b x^2 + c], respectively
    [y^2 + a y = x^3 + b x + c]). *)
Theorem add_opposite_is_infinity :
  (forall p a b x1 y1 y2 : Z,
     Z.prime p -> 0 <= y1 < p -> 0 <= y2 < p ->
     ZpCurve.is_on_curve p a b (Affine x1 y1) = Ok true ->
     ZpCurve.is_on_curve p a b (Affine x1 y2) = Ok true ->
     y1 <> y2 ->
     add (ZpCurve.curve p a) (Affine x1 y1) (Affine x1 y2) = Ok infinity)
  /\ (forall (T : Type) (EqT : Eqb T) (OpsT : PolynomialOps T)
             (F : Field T) (one : T),
        BinaryField F one ->
        forall a b c x1 y1 y2 : T,
          modulus F y1 = y1 -> modulus F y2 = y2 -> y1 <> y2 ->
          (GF2.NS_equation F a b c x1 y1 = true ->
           GF2.NS_equation F a b c x1 y2 = true ->
           add (GF2NotSupersingularCurve.curve F a b)
               (Affine x1 y1) (Affine x1 y2) = Ok infinity)
          /\ (GF2.SS_equation F a b c x1 y1 = true ->
              GF2.SS_equation F a b c x1 y2 = true ->
              add (GF2SupersingularCurve.curve F a b)
                  (Affine x1 y1) (Affine x1 y2) = Ok infinity)).
Proof.
  split.
  - intros p a b x1 y1 y2. apply add_opposite.
  - intros T EqT OpsT F one laws a b c x1 y1 y2 R1 R2 Hne. split.
    + intros E1 E2. now apply (NS_add_opposite F one laws a b c).
    + intros E1 E2. now apply (SS_add_opposite F one laws a b c).
Qed.

(** On [y^2 = x^3 + 2x + 2 mod 17]: [(5, 1)] and [(5, 16)]; over GF(4) on
    [y^2 + x y = x^3 + 1]: [(1, 0)] and [(1, 1)]; on [y^2 + y = x^3]:
    [(0, 0)] and [(0, 1)]. *)
Lemma add_opposite_is_infinity_witness :
  add (ZpCurve.curve 17 2) (Affine 5 1) (Affine 5 16) = Ok infinity
  /\ add (GF2NotSupersingularCurve.curve GF4.field GF4.one GF4.zero)
         (Affine GF4.one GF4.zero) (Affine GF4.one GF4.one) = Ok infinity
  /\ add (GF2SupersingularCurve.curve GF4.field GF4.one GF4.zero)
         (Affine GF4.zero GF4.zero) (Affine GF4.zero GF4.one) = Ok infinity.
Proof.
  destruct add_opposite_is_infinity as [HZ HB].
  split; [| split].
  - apply (HZ 17 2 2 5 1 16); try reflexivity; try lia.
    exact prime_17.
  - apply (HB _ _ _ GF4.field GF4.one GF4_BinaryField
              GF4.one GF4.zero GF4.one GF4.one GF4.zero GF4.one);
      try reflexivity. discriminate.
  - apply (HB _ _ _ GF4.field GF4.one GF4_BinaryField
              GF4.one GF4.zero GF4.zero GF4.zero GF4.zero GF4.one);
      try reflexivity. discriminate.
Defined.

(** [(5, 18)] is [(5, 1)] with an ordinate that is not reduced: both pass
    [is_on_curve], [add] compares the ordinates as they are, takes case 2
    and raises. *)
Lemma add_opposite_unreduced_raises :
  ZpCurve.is_on_curve 17 2 2 (Affine 5 1) = Ok true
  /\ ZpCurve.is_on_curve 17 2 2 (Affine 5 18) = Ok true
  /\ add (ZpCurve.curve 17 2) (Affine 5 1) (Affine 5 18) = raise ValueError.
Proof. repeat split; vm_compute; reflexivity. Qed.

(** C2 (as the code has it).  Closure, for points with reduced
    coordinates.  On the prime-field curve with [p] prime, for points
    [P], [Q] with coordinates in [range(p)] that pass [is_on_curve]:
    [add(P, Q)] returns such a point again, the doubling of a point with
    a vertical tangent set aside, and [mul(P, n)] returns such a point
    for every [n >= 0] for which the doublings of its loop return.  The
    binary variants have no [is_on_curve]; over a binary field, for
    points that [modulus] keeps and that satisfy the equation whose group
    law the variant computes, [add(P, Q)] returns such a point again
    unless it is a doubling that raises, and [mul(P, n)] returns such a
    point whenever the doublings of its loop return. *)
Theorem curve_closure :
  (forall (p a b : Z) (P Q : Point Z),
     Z.prime p -> Zp.valid p a b P -> Zp.valid p a b Q ->
     ((P = Q -> Zp.vertical_tangent p P = false) ->
        exists R, add (ZpCurve.curve p a) P Q = Ok R /\ Zp.valid p a b R)
     /\ (forall n : N,
           doubles (ZpCurve.curve p a) (N.size_nat n) P ->
           exists R, mul (ZpCurve.curve p a) P n = Ok R
                     /\ Zp.valid p a b R))
  /\ (forall (T : Type) (EqT : Eqb T) (OpsT : PolynomialOps T)
             (F : Field T) (one : T),
        BinaryField F one ->
        forall (a b c : T) (P Q : Point T),
          (GF2.NS_valid F a b c P -> GF2.NS_valid F a b c Q ->
           let NS := GF2NotSupersingularCurve.curve F a b in
           ((exists R, add NS P Q = Ok R /\ GF2.NS_valid F a b c R)
            \/ (P = Q /\ exists e, add NS P P = inl e))
           /\ (forall n : N,
                 doubles NS (N.size_nat n) P ->
                 exists R, mul NS P n = Ok R /\ GF2.NS_valid F a b c R))
          /\ (GF2.SS_valid F a b c P -> GF2.SS_valid F a b c Q ->
              let SS := GF2SupersingularCurve.curve F a b in
              ((exists R, add SS P Q = Ok R /\ GF2.SS_valid F a b c R)
               \/ (P = Q /\ exists e, add SS P P = inl e))
              /\ (forall n : N,
                    doubles SS (N.size_nat n) P ->
                    exists R, mul SS P n = Ok R
                              /\ GF2.SS_valid F a b c R))).
Proof.
  split.
  - intros p a b P Q Hp HP HQ. split.
    + intros Hv.
      destruct (add_valid_or_vertical p a b P Q Hp HP HQ)
        as [HR | [HE [Hvt _]]]; [exact HR |].
      rewrite (Hv HE) in Hvt. discriminate.
    + intros n Hd.
      apply (mul_total (ZpCurve.curve p a) (Zp.valid p a b)); trivial.
      * apply valid_infinity.
      * intros U V HU HV. now apply (add_closed p a b).
  - intros T EqT OpsT F one laws a b c P Q. split.
    + intros HP HQ NS. split.
      * now apply (NS_add_closed F one laws).
      * intros n Hd.
        apply (mul_total NS (GF2.NS_valid F a b c)); trivial.
        -- apply NS_valid_infinity.
        -- apply (NS_add_closed F one laws).
    + intros HP HQ SS. split.
      * now apply (SS_add_closed F one laws).
      * intros n Hd.
        apply (mul_total SS (GF2.SS_valid F a b c)); trivial.
        -- apply SS_valid_infinity.
        -- apply (SS_add_closed F one laws).
Qed.

(** The same three curves; for [mul] the scalar [3], whose loop doubles
    the addend twice. *)
Lemma curve_closure_witness :
  ((exists R, add (ZpCurve.curve 17 2) (Affine 5 1) (Affine 6 3) = Ok R
              /\ Zp.valid 17 2 2 R)
   /\ (exists R, mul (ZpCurve.curve 17 2) (Affine 5 1) 3 = Ok R
                 /\ Zp.valid 17 2 2 R))
  /\ (let NS := GF2NotSupersingularCurve.curve GF4.field GF4.one GF4.zero in
      let valid := GF2.NS_valid GF4.field GF4.one GF4.zero GF4.one in
      let P := Affine (false, true) GF4.zero in
      let Q := Affine GF4.one GF4.zero in
      ((exists R, add NS P Q = Ok R /\ valid R)
       \/ (P = Q /\ exists e, add NS P P = inl e))
      /\ (exists R, mul NS P 3 = Ok R /\ valid R))
  /\ (let SS := GF2SupersingularCurve.curve GF4.field GF4.one GF4.zero in
      let valid := GF2.SS_valid GF4.field GF4.one GF4.zero GF4.zero in
      let P := Affine GF4.one (false, true) in
      let Q := Affine GF4.zero GF4.zero in
      ((exists R, add SS P Q = Ok R /\ valid R)
       \/ (P = Q /\ exists e, add SS P P = inl e))
      /\ (exists R, mul SS P 3 = Ok R /\ valid R)).
Proof.
  destruct curve_closure as [HZ HB].
  split; [| split].
  - destruct (HZ 17 2 2 (Affine 5 1) (Affine 6 3) prime_17)
      as [HA HM]; try (split; reflexivity).
    split.
    + apply HA. discriminate.
    + apply HM. simpl.
      exists (Affine 6 3). split; [vm_compute; reflexivity |].
      exists (Affine 3 1). split; [vm_compute; reflexivity | exact I].
  - intros NS valid P Q.
    destruct (HB _ _ _ GF4.field GF4.one GF4_BinaryField
                GF4.one GF4.zero GF4.one P Q) as [[HA HM] _];
      try (split; reflexivity).
    split; [exact HA |]. apply HM. simpl.
    eexists. split; [vm_compute; reflexivity |].
    eexists. split; [vm_compute; reflexivity | exact I].
  - intros SS valid P Q.
    destruct (HB _ _ _ GF4.field GF4.one GF4_BinaryField
                GF4.one GF4.zero GF4.zero P Q) as [_ [HA HM]];
      try (split; reflexivity).
    split; [exact HA |]. apply HM. simpl.
    eexists. split; [vm_compute; reflexivity |].
    eexists. split; [vm_compute; reflexivity | exact I].
Defined.

(** [(6, 20)] is [(6, 3)] with an ordinate that is not reduced: both
    pass [is_on_curve], and [add] of the two raises instead of returning
    a point of the curve. *)
Lemma add_unreduced_raises :
  ZpCurve.is_on_curve 17 2 2 (Affine 6 3) = Ok true
  /\ ZpCurve.is_on_curve 17 2 2 (Affine 6 20) = Ok true
  /\ add (ZpCurve.curve 17 2) (Affine 6 3) (Affine 6 20) = raise ValueError.
Proof. repeat split; vm_compute; reflexivity. Qed.

(** C3 (the code departs from it).  [mul(P, 0)] is the identity for every
    point, and [mul(P, 1)] is [P] whenever the doubling [add(P, P)] that
    the loop performs all the same returns.  On the curve
    [y^2 = x^3 + 4x mod 5] the point [(0, 0)] is on the curve and has a
    vertical tangent: [mul((0, 0), 1)] raises the field's error instead
    of returning the point. *)
Theorem mul_one_raises_at_vertical_tangent :
  ZpCurve.is_on_curve 5 4 0 (Affine 0 0) = Ok true
  /\ mul (ZpCurve.curve 5 4) (Affine 0 0) 0 = Ok infinity
  /\ mul (ZpCurve.curve 5 4) (Affine 0 0) 1 = raise NonInvertible.
Proof. repeat split; vm_compute; reflexivity. Qed.

(** C4 (as the code has it).  On the prime-field curve with [p] prime:
    [point_order] fails with the infinite-point error on the identity
    point and with the not-on-curve error on a point for which
    [is_on_curve] is false.  For a point [P] with coordinates in
    [range(p)] that passes [is_on_curve]: if [n] is the smallest integer
    [>= 2] with [mul(P, n) = infinity()] and [n <= p], then
    [point_order(P)] returns [n]; whenever [point_order(P)] returns [n],
    then [2 <= n <= p], [mul(P, n) = infinity()] and
    [mul(P, k) <> infinity()] for every [0 < k < n]; and [point_order(P)]
    fails with the order-not-found error when [mul(P, n)] returns a
    point other than the identity for every [n] from [2] to [p] and the
    one further evaluation [mul(P, p + 1)] of the loop test returns. *)
Theorem point_order_spec (p a b : Z) :
  Z.prime p ->
  ZpCurve.point_order p a b infinity = raise InfinitePoint
  /\ (forall Q : Point Z,
        Q <> infinity -> ZpCurve.is_on_curve p a b Q = Ok false ->
        ZpCurve.point_order p a b Q = raise NotOnCurve)
  /\ (forall px py : Z,
        0 <= px < p -> 0 <= py < p ->
        ZpCurve.is_on_curve p a b (Affine px py) = Ok true ->
        let multiple k := mul (ZpCurve.curve p a) (Affine px py) (Z.to_N k) in
        (forall n : Z,
           2 <= n <= p -> multiple n = Ok infinity ->
           (forall k, 2 <= k < n -> multiple k <> Ok infinity) ->
           ZpCurve.point_order p a b (Affine px py) = Ok n)
        /\ (forall n : Z,
              ZpCurve.point_order p a b (Affine px py) = Ok n ->
              2 <= n <= p /\ multiple n = Ok infinity
              /\ forall k, 0 < k < n -> multiple k <> Ok infinity)
        /\ ((forall k, 2 <= k <= p ->
               exists R, multiple k = Ok R /\ R <> infinity) ->
            (exists R, multiple (p + 1) = Ok R) ->
            ZpCurve.point_order p a b (Affine px py) = raise IncorrectOrder)).
Proof.
  intros Hp. pose proof (Z.prime_ge_2 _ Hp) as Hp2.
  split; [reflexivity |]. split.
  - intros Q HQ Hc. unfold ZpCurve.point_order.
    apply point_eqb_infinity in HQ. rewrite HQ, Hc. reflexivity.
  - intros px py Hx Hy Hc multiple.
    assert (HP : Zp.valid p a b (Affine px py)) by now apply valid_affine.
    assert (Hni : Affine px py <> infinity) by discriminate.
    rewrite (point_order_on_curve p a b _ Hni Hc).
    split; [| split].
    + intros n Hn Hinf Hmin.
      rewrite (point_order_loop_found p a (Affine px py) (Z.to_nat p) 2 n
                 infinity); try lia; auto.
      * simpl. now replace (n >? p) with false by lia.
      * intros k Hk.
        destruct (mul_total_below (ZpCurve.curve p a) (Zp.valid p a b)
                    (valid_infinity p a b)
                    (fun U V => add_closed p a b U V Hp)
                    (Affine px py) infinity
                    (Z.to_N k) (Z.to_N n) HP Hinf ltac:(lia))
          as [Rk [HRk _]].
        exists Rk. split; [exact HRk |].
        intros ->. now apply (Hmin k Hk).
    + intros n Hn. apply bind_Ok in Hn. destruct Hn as [n' [HL Hn]].
      destruct (n' >? p) eqn:Hgt; [discriminate |].
      injection Hn as <-.
      destruct (point_order_loop_sound p a (Affine px py) (Z.to_nat p) 2 n'
                  ltac:(lia) HL) as [H2 [Hk [R [HR Hstop]]]].
      split; [lia |]. split.
      * destruct Hstop as [-> | Hlt]; [exact HR | lia].
      * intros k Hk'. destruct (Z.eq_dec k 1) as [-> | Hne].
        -- now apply mul_one_not_infinity.
        -- destruct (Hk k ltac:(lia)) as [_ [Rk [HRk Hinf]]].
           fold (multiple k) in HRk. rewrite HRk.
           intros [= E]. contradiction.
    + intros Hall [R HR].
      rewrite (point_order_loop_found p a (Affine px py) (Z.to_nat p) 2
                 (p + 1) R); try lia; auto.
      * simpl. now replace (p + 1 >? p) with true by lia.
      * intros k Hk. apply Hall. lia.
Qed.

(** On [y^2 = x^3 + 1 mod 7] the point [(0, 1)] has order 3. *)
Lemma point_order_spec_witness :
  ZpCurve.point_order 7 0 1 (Affine 0 1) = Ok 3.
Proof.
  destruct (point_order_spec 7 0 1 prime_7) as [_ [_ H]].
  destruct (H 0 1 ltac:(lia) ltac:(lia) eq_refl) as [Hfound _].
  apply Hfound; [lia | vm_compute; reflexivity |].
  intros k Hk. assert (k = 2) as -> by lia. vm_compute. discriminate.
Defined.

(** On [y^2 = x^3 + 1 mod 7] the point [(7, 1)] passes [is_on_curve]
    (it is [(0, 1)] with an abscissa that is not reduced).  The smallest
    [n >= 2] with [mul(P, n) = infinity()] is [6 <= 7], yet
    [point_order(P)] raises the field's error, at [mul(P, 3)]. *)
Lemma point_order_unreduced_raises :
  ZpCurve.is_on_curve 7 0 1 (Affine 7 1) = Ok true
  /\ mul (ZpCurve.curve 7 0) (Affine 7 1) 6 = Ok infinity
  /\ mul (ZpCurve.curve 7 0) (Affine 7 1) 2 = Ok (Affine 0 6)
  /\ mul (ZpCurve.curve 7 0) (Affine 7 1) 3 = raise NonInvertible
  /\ mul (ZpCurve.curve 7 0) (Affine 7 1) 4 = Ok (Affine 0 1)
  /\ mul (ZpCurve.curve 7 0) (Affine 7 1) 5 = raise NonInvertible
  /\ ZpCurve.point_order 7 0 1 (Affine 7 1) = raise NonInvertible.
Proof. repeat split; vm_compute; reflexivity. Qed.

(** C5.  [add(P, Q) = add(Q, P)] on every variant: on the prime-field
    curve for all points and parameters, on the two binary curves over
    every binary field.  The points need not be on the curve; when one
    order raises, the other raises the same error. *)
Theorem add_commutative :
  (forall (p a : Z) (P Q : Point Z),
     add (ZpCurve.curve p a) P Q = add (ZpCurve.curve p a) Q P)
  /\ (forall (T : Type) (EqT : Eqb T) (OpsT : PolynomialOps T)
             (F : Field T) (one : T),
        BinaryField F one ->
        forall (a b : T) (P Q : Point T),
          add (GF2NotSupersingularCurve.curve F a b) P Q
          = add (GF2NotSupersingularCurve.curve F a b) Q P
          /\ add (GF2SupersingularCurve.curve F a b) P Q
             = add (GF2SupersingularCurve.curve F a b) Q P).
Proof.
  split.
  - intros p a P Q. apply Zp_add_comm.
  - intros T EqT OpsT F one laws a b P Q. split.
    + now apply (NS_add_comm F one laws).
    + now apply (SS_add_comm F one laws).
Qed.

(** One pair of distinct points on each of the three curves. *)
Lemma add_commutative_witness :
  add (ZpCurve.curve 17 2) (Affine 5 1) (Affine 6 3)
  = add (ZpCurve.curve 17 2) (Affine 6 3) (Affine 5 1)
  /\ add (GF2NotSupersingularCurve.curve GF4.field GF4.one GF4.zero)
         (Affine GF4.one GF4.zero) (Affine (false, true) GF4.one)
     = add (GF2NotSupersingularCurve.curve GF4.field GF4.one GF4.zero)
           (Affine (false, true) GF4.one) (Affine GF4.one GF4.zero)
  /\ add (GF2SupersingularCurve.curve GF4.field GF4.one GF4.zero)
         (Affine GF4.zero GF4.zero) (Affine GF4.one GF4.one)
     = add (GF2SupersingularCurve.curve GF4.field GF4.one GF4.zero)
           (Affine GF4.one GF4.one) (Affine GF4.zero GF4.zero).
Proof.
  destruct add_commutative as [HZ HB].
  split; [apply HZ |].
  split; apply (HB _ _ _ GF4.field GF4.one GF4_BinaryField).
Defined.

(** C6 (as the code has it).  The signal [InfinitePoint] that a
    coefficient strategy raises is caught inside [add] and becomes the
    identity point: on every curve, [add] of two points that are not
    infinite returns the identity when the coefficient of their case
    signals it; [add] and [mul] of the three variants, [is_on_curve] and
    the iteration of [all_points] never raise [InfinitePoint], for any
    input.  [point_order] does raise [InfinitePoint], by its own guard,
    exactly when it is called on the identity point. *)
Theorem InfinitePoint_leaves_only_point_order :
  (forall (T : Type) (EqT : Eqb T) (C : Curve T) (P Q : Point T),
     is_infinite P = false -> is_infinite Q = false ->
     coefficient C P Q = raise InfinitePoint ->
     add C P Q = Ok infinity)
  /\ (forall (p a : Z) (P Q : Point Z) (n : N),
        add (ZpCurve.curve p a) P Q <> raise InfinitePoint
        /\ mul (ZpCurve.curve p a) P n <> raise InfinitePoint)
  /\ (forall (T : Type) (EqT : Eqb T) (OpsT : PolynomialOps T)
             (F : Field T) (a b : T) (P Q : Point T) (n : N),
        add (GF2NotSupersingularCurve.curve F a b) P Q <> raise InfinitePoint
        /\ mul (GF2NotSupersingularCurve.curve F a b) P n
           <> raise InfinitePoint
        /\ add (GF2SupersingularCurve.curve F a b) P Q <> raise InfinitePoint
        /\ mul (GF2SupersingularCurve.curve F a b) P n
           <> raise InfinitePoint)
  /\ (forall (p a b : Z) (P : Point Z) (g : ZpCurve.generator),
        ZpCurve.is_on_curve p a b P <> raise InfinitePoint
        /\ ZpCurve.next p a b g <> raise InfinitePoint
        /\ (ZpCurve.point_order p a b P = raise InfinitePoint
            <-> P = infinity)).
Proof.
  split; [| split; [| split]].
  - intros T EqT C P Q. apply add_signal_is_infinity.
  - intros p a P Q n. split;
      [apply Zp_add_no_signal | apply Zp_mul_no_signal].
  - intros T EqT OpsT F a b P Q n. repeat split.
    + apply NS_add_no_signal.
    + apply mul_catches_InfinitePoint. apply NS_add_no_signal.
    + apply SS_add_no_signal.
    + apply mul_catches_InfinitePoint. apply SS_add_no_signal.
  - intros p a b P g. split; [| split].
    + intros E. apply is_on_curve_error in E. discriminate.
    + destruct g as [rest |]; cbn [ZpCurve.next]; [| discriminate].
      destruct (resume_yields p a b rest) as [point [g' [Hr _]]].
      rewrite Hr. discriminate.
    + apply point_order_signal.
Qed.

(** The vertical chord through [(5, 1)] and [(5, 16)]: case 2 signals,
    [add] returns the identity. *)
Lemma InfinitePoint_leaves_only_point_order_witness :
  coefficient (ZpCurve.curve 17 2) (Affine 5 1) (Affine 5 16)
  = raise InfinitePoint
  /\ add (ZpCurve.curve 17 2) (Affine 5 1) (Affine 5 16) = Ok infinity.
Proof.
  split; [reflexivity |].
  apply (proj1 InfinitePoint_leaves_only_point_order); reflexivity.
Defined.

(** The guard of [point_order] lets the exception reach the caller. *)
Lemma point_order_infinity_raises_InfinitePoint :
  ZpCurve.point_order 17 2 2 infinity = raise InfinitePoint.
Proof. reflexivity. Qed.

(** C7.  On the prime-field curve built with [p = 17], [a = 2], [b = 2]
    (the curve [y^2 = x^3 + 2x + 2 mod 17]) the point [(5, 1)] passes
    [is_on_curve], and adding it to itself returns the doubled point
    [(6, 3)]. *)
Theorem scenario_A_doubling :
  ZpCurve.is_on_curve 17 2 2 (Affine 5 1) = Ok true
  /\ add (ZpCurve.curve 17 2) (Affine 5 1) (Affine 5 1) = Ok (Affine 6 3).
Proof. split; vm_compute; reflexivity. Qed.

(** C8.  On the supersingular binary curve, doubling a point that is not
    infinite, [add(P, P)], raises the calculation error whenever the
    coefficient [a] reduces to the zero element of the field; otherwise
    the coefficient of the doubling is
    [modulus((Px * Px + b) * invert(a))] (with the error of [invert], if
    it raises one). *)
Theorem supersingular_doubling
    {T : Type} {EqT : Eqb T} {OpsT : PolynomialOps T}
    (F : Field T) (a b : T) (P : Point T) :
  is_infinite P = false ->
  let SS := GF2SupersingularCurve.curve F a b in
  (modulus F a = zero F -> add SS P P = raise CalculationError)
  /\ (modulus F a <> zero F ->
        coefficient SS P P
        = (px <- coord (x P) ;;
           inv <- invert F a ;;
           Ok (modulus F ((px * px + b) * inv)))%poly).
Proof.
  intros HP SS. split; intros Ha.
  - unfold add. rewrite HP, coefficient_double.
    cbn [SS _third_case_coefficient GF2SupersingularCurve.curve].
    unfold GF2SupersingularCurve.third_case_coefficient.
    apply eqb_eq in Ha. now rewrite Ha.
  - rewrite coefficient_double.
    cbn [SS _third_case_coefficient GF2SupersingularCurve.curve].
    unfold GF2SupersingularCurve.third_case_coefficient.
    destruct (eqb (modulus F a) (zero F)) eqn:E; [| reflexivity].
    apply eqb_eq in E. contradiction.
Qed.

(** Over GF(4): with [a = 0] the doubling raises; with [a = 1], [b = 1]
    the doubling of [(t, 1)] has the coefficient [t^2 + 1 = t]. *)
Lemma supersingular_doubling_witness :
  add (GF2SupersingularCurve.curve GF4.field GF4.zero GF4.one)
      (Affine GF4.one GF4.one) (Affine GF4.one GF4.one)
  = raise CalculationError
  /\ coefficient (GF2SupersingularCurve.curve GF4.field GF4.one GF4.one)
                 (Affine (false, true) GF4.one) (Affine (false, true) GF4.one)
     = Ok (false, true).
Proof.
  split.
  - apply (supersingular_doubling GF4.field GF4.zero GF4.one
             (Affine GF4.one GF4.one)); reflexivity.
  - rewrite (proj2 (supersingular_doubling GF4.field GF4.one GF4.one
                      (Affine (false, true) GF4.one) eq_refl)).
    + reflexivity.
    + discriminate.
Defined.

(** C9.  On the prime-field curve, iterating [all_points()] to its end
    yields a finite list: the coordinate pairs [(x, y)] with
    [0 <= x < p] and [0 <= y < p] that pass [is_on_curve], each once, in
    the order of [product(range(p), repeat=2)], followed by the identity
    point as the last element.  The generator yields them one at a time,
    and every fresh call of [all_points()] yields the same list again. *)
Theorem all_points_enumerates (p a b : Z) :
  exists points : list (Point Z),
    (forall fuel : nat, (length points < fuel)%nat ->
       ZpCurve.collect p a b fuel (ZpCurve.all_points p) = Ok (Some points))
    /\ points
       = map Zp.point_of
           (filter (Zp.satisfies p a b) (list_prod (range p) (range p)))
         ++ [infinity]
    /\ (forall cx cy : Z,
          In (Affine cx cy) points
          <-> (0 <= cx < p /\ 0 <= cy < p)
              /\ ZpCurve.is_on_curve p a b (Affine cx cy) = Ok true)
    /\ NoDup points
    /\ (forall rest : list (Z * Z),
          exists point g,
            ZpCurve.next p a b (ZpCurve.Scanning rest) = Ok (Some (point, g))
            /\ Zp.remaining p a b (ZpCurve.Scanning rest)
               = point :: Zp.remaining p a b g).
Proof.
  exists (Zp.remaining p a b (ZpCurve.all_points p)).
  split; [| split; [| split; [| split]]].
  - intros fuel Hf. now apply collect_remaining.
  - apply remaining_all_points.
  - apply In_remaining_affine.
  - apply NoDup_remaining.
  - intros rest. destruct (resume_yields p a b rest) as [point [g [Hr Hrem]]].
    exists point, g. split; [| exact Hrem].
    cbn [ZpCurve.next]. now rewrite Hr.
Qed.

(** The eight points of [y^2 = x^3 + 4x mod 5]. *)
Lemma all_points_enumerates_witness :
  ZpCurve.collect 5 4 0 9 (ZpCurve.all_points 5)
  = Ok (Some [Affine 0 0; Affine 1 0; Affine 2 1; Affine 2 4;
              Affine 3 2; Affine 3 3; Affine 4 0; infinity]).
Proof.
  destruct (all_points_enumerates 5 4 0) as [points [Hc [Hp _]]].
  rewrite (Hc 9%nat); rewrite Hp.
  - reflexivity.
  - vm_compute. lia.
Defined.

(** C10.  On the prime-field curve, for a point [P] with both coordinates
    present and [2 * Py = 0 (mod p)], [add(P, P)] does not return the
    identity: the coefficient of case 3 asks the field for the inverse of
    an element that has none, and the field's error leaves [add]; and
    [mul(P, n)] raises the same error for every [n >= 1], because its
    first iteration doubles the addend [P].  (This holds whether or not
    [P] is on the curve.) *)
Theorem vertical_tangent_raises (p a px py : Z) :
  (2 * py) mod p = 0 ->
  add (ZpCurve.curve p a) (Affine px py) (Affine px py) = raise NonInvertible
  /\ forall n : N, (0 < n)%N ->
       mul (ZpCurve.curve p a) (Affine px py) n = raise NonInvertible.
Proof.
  intros Hy.
  pose proof (add_double_vertical p a px py Hy) as HD.
  split; [exact HD |].
  intros [| s] Hn; [lia |]. simpl.
  destruct s as [s | s |]; simpl; rewrite ?add_infinity_l; simpl;
    now rewrite HD.
Qed.

(** On [y^2 = x^3 + 4x mod 5] the point [(0, 0)] has a vertical
    tangent. *)
Lemma vertical_tangent_raises_witness :
  ZpCurve.is_on_curve 5 4 0 (Affine 0 0) = Ok true
  /\ add (ZpCurve.curve 5 4) (Affine 0 0) (Affine 0 0) = raise NonInvertible
  /\ mul (ZpCurve.curve 5 4) (Affine 0 0) 3 = raise NonInvertible.
Proof.
  split; [reflexivity |].
  destruct (vertical_tangent_raises 5 4 0 0 eq_refl) as [HA HM].
  split; [exact HA | apply HM; reflexivity].
Defined.

(** * Further properties of the code *)

(** ** The engine, on every curve *)

Section EngineFurther.
Context {T : Type} `{Eqb T}.
Variable C : Curve T.

(** X1.  The identity law: [add(P, infinity())] and [add(infinity(), P)]
    return [P], for every curve and every point, without calling a
    strategy of the variant. *)
Theorem add_identity (P : Point T) :
  add C P infinity = Ok P /\ add C infinity P = Ok P.
Proof. split; [apply add_infinity_r | apply add_infinity_l]. Qed.

Lemma mul_loop_infinity (s : positive) :
  mul_loop C s infinity infinity = Ok infinity.
Proof.
  induction s as [s IH | s IH |]; simpl; rewrite ?add_infinity_l; simpl;
    trivial.
Qed.

(** X2.  Every multiple of the identity is the identity: [mul] of
    [infinity()] returns [infinity()] for every scalar and raises
    nothing, on every curve. *)
Theorem mul_infinity (n : N) : mul C infinity n = Ok infinity.
Proof. destruct n as [| s]; [reflexivity | apply mul_loop_infinity]. Qed.

(** X3.  Halving the scalar: for [n >= 1], [mul(P, 2 n)] is
    [mul(add(P, P), n)], with the error of the doubling if it raises. *)
Theorem mul_even (P : Point T) (n : N) :
  (0 < n)%N ->
  mul C P (2 * n) = (A <- add C P P ;; mul C A n).
Proof.
  intros Hn. destruct n as [| s]; [lia |]. reflexivity.
Qed.

Lemma mul_even_pos (P : Point T) (s : positive) :
  mul C P (Npos (xO s)) = (A <- add C P P ;; mul C A (Npos s)).
Proof. reflexivity. Qed.

Lemma bind_assoc {A B D : Type} (c : outcome A) (f : A -> outcome B)
    (g : B -> outcome D) :
  bind (bind c f) g = bind c (fun u => bind (f u) g).
Proof. destruct c; reflexivity. Qed.

(** X4.  [mul(P, 2^k)] is [P] doubled [k] times; the loop then doubles
    the result once more and drops that point, so an error of this last
    doubling leaves [mul] although the result was already computed. *)
Theorem mul_power_of_two (P : Point T) (k : nat) :
  mul C P (2 ^ N.of_nat k)
  = (A <- doublings C k P ;; _ <- add C A A ;; Ok A).
Proof.
  revert P. induction k as [| k IH]; intros P; [reflexivity |].
  rewrite Nat2N.inj_succ, N.pow_succ_r'.
  destruct (2 ^ N.of_nat k)%N as [| s] eqn:E.
  - exfalso. apply (N.pow_nonzero 2 (N.of_nat k)); [discriminate | exact E].
  - change (2 * N.pos s)%N with (Npos (xO s)). rewrite mul_even_pos.
    cbn [doublings]. rewrite bind_assoc.
    destruct (add C P P) as [e | A]; [reflexivity |]. cbn [bind].
    apply IH.
Qed.

Lemma mul_loop_first_doubling (P : Point T) (e : error) (s : positive) :
  add C P P = inl e -> mul_loop C s infinity P = inl e.
Proof.
  intros HD. destruct s as [s | s |]; simpl; rewrite ?add_infinity_l; simpl;
    now rewrite HD.
Qed.

(** X5.  An error of the first doubling leaves [mul] for every positive
    scalar: if [add(P, P)] raises, [mul(P, n)] raises the same error for
    every [n >= 1], also for [n = 1], where the doubling is not needed. *)
Theorem mul_first_doubling_raises (P : Point T) (e : error) (n : N) :
  add C P P = inl e -> (0 < n)%N -> mul C P n = inl e.
Proof.
  intros HD Hn. destruct n as [| s]; [lia |].
  now apply mul_loop_first_doubling.
Qed.

Lemma add_well_formed (P Q R : Point T) :
  well_formed P = true -> well_formed Q = true ->
  add C P Q = Ok R -> well_formed R = true.
Proof.
  intros HP HQ. unfold add.
  destruct (is_infinite P); [now intros [= <-] |].
  destruct (is_infinite Q); [now intros [= <-] |].
  destruct (coefficient C P Q) as [e | k].
  - destruct e; intros [= <-]; reflexivity.
  - destruct (_additive_point C P Q _) as [e | A]; simpl; [discriminate |].
    destruct (x A), (y A); simpl; intros [= <-]; reflexivity.
Qed.

Lemma mul_loop_well_formed (s : positive) (R A R' : Point T) :
  well_formed R = true -> well_formed A = true ->
  mul_loop C s R A = Ok R' -> well_formed R' = true.
Proof.
  revert R A. induction s as [s IH | s IH |]; intros R A HR HA HM;
    simpl in HM.
  - apply bind_Ok in HM. destruct HM as [R1 [H1 HM]].
    apply bind_Ok in HM. destruct HM as [A1 [H2 HM]].
    apply (IH R1 A1); trivial.
    + now apply (add_well_formed R A).
    + now apply (add_well_formed A A).
  - apply bind_Ok in HM. destruct HM as [A1 [H2 HM]].
    apply (IH R A1); trivial. now apply (add_well_formed A A).
  - apply bind_Ok in HM. destruct HM as [R1 [H1 HM]].
    apply bind_Ok in HM. destruct HM as [A1 [H2 HM]].
    injection HM as <-. now apply (add_well_formed R A).
Qed.

(** X6.  The invariant of [Point] is kept: on every curve, what [add]
    and [mul] return for operands that are the identity or have both
    coordinates is again the identity or a point with both coordinates. *)
Theorem results_well_formed (P Q : Point T) :
  well_formed P = true -> well_formed Q = true ->
  (forall R, add C P Q = Ok R -> well_formed R = true)
  /\ (forall n R, mul C P n = Ok R -> well_formed R = true).
Proof.
  intros HP HQ. split.
  - intros R. now apply add_well_formed.
  - intros n R. destruct n as [| s]; simpl.
    + now intros [= <-].
    + now apply mul_loop_well_formed.
Qed.

(** X7.  [==] on points is equality of both coordinates, and comparing
    with [Point.infinity()], as [point_order] does, agrees with
    [is_infinite()], which [add] uses. *)
Theorem point_equality (P Q : Point T) :
  (point_eqb P Q = true <-> P = Q)
  /\ point_eqb P infinity = is_infinite P.
Proof.
  split; [apply point_eqb_eq |].
  destruct P as [[px |] [py |]]; reflexivity.
Qed.
End EngineFurther.


(** On the curve [y^2 = x^3 + 4x mod 5]: the scalar [2 * 3]; the point
    [(0, 0)], whose doubling raises; the sum of [(2, 1)] and [(3, 2)]. *)
Lemma mul_even_witness :
  mul (ZpCurve.curve 5 4) (Affine 2 1) 6
  = (A <- add (ZpCurve.curve 5 4) (Affine 2 1) (Affine 2 1) ;;
     mul (ZpCurve.curve 5 4) A 3).
Proof. apply (mul_even (ZpCurve.curve 5 4) (Affine 2 1) 3). reflexivity. Defined.

Lemma mul_first_doubling_raises_witness :
  mul (ZpCurve.curve 5 4) (Affine 0 0) 1 = inl NonInvertible.
Proof.
  apply (mul_first_doubling_raises (ZpCurve.curve 5 4) (Affine 0 0));
    reflexivity.
Defined.

Lemma results_well_formed_witness :
  exists R S : Point Z,
    add (ZpCurve.curve 5 4) (Affine 2 1) (Affine 3 2) = Ok R
    /\ mul (ZpCurve.curve 5 4) (Affine 2 1) 1 = Ok S
    /\ well_formed R = true /\ well_formed S = true.
Proof.
  destruct (results_well_formed (ZpCurve.curve 5 4) (Affine 2 1) (Affine 3 2)
              eq_refl eq_refl) as [HA HM].
  eexists. eexists.
  split; [vm_compute; reflexivity |].
  split; [vm_compute; reflexivity |].
  split; [apply HA | apply (HM 1%N)]; vm_compute; reflexivity.
Defined.

(** ** The prime-field curve *)

Section ZpFurther.
Variables p a b : Z.

Local Abbreviation C := (ZpCurve.curve p a).
Local Abbreviation is_on_curve := (ZpCurve.is_on_curve p a b).

(** X8.  [is_on_curve] looks at the coordinates through [modulus] only:
    shifting a coordinate by a multiple of [p] does not change its
    answer (while [add], which compares the coordinates as they are,
    takes the shifted point for a different one). *)
Theorem is_on_curve_shift (px py i j : Z) :
  is_on_curve (Affine (px + i * p) (py + j * p))
  = is_on_curve (Affine px py).
Proof.
  rewrite !(is_on_curve_affine p a b). f_equal. f_equal.
  - change (eqm p ((py + j * p) ^ 2) (py ^ 2)).
    assert (E : eqm p (py + j * p) py) by apply Z_mod_plus_full.
    replace ((py + j * p) ^ 2) with ((py + j * p) * (py + j * p)) by ring.
    rewrite E. apply eq_eqm. ring.
  - change (eqm p ((px + i * p) ^ 3 + a * (px + i * p) + b)
                  (px ^ 3 + a * px + b)).
    assert (E : eqm p (px + i * p) px) by apply Z_mod_plus_full.
    replace ((px + i * p) ^ 3)
      with ((px + i * p) * (px + i * p) * (px + i * p)) by ring.
    rewrite E. apply eq_eqm. ring.
Qed.

(** X9.  What [add] returns for two points with both coordinates is
    reduced: it is the identity or a point with coordinates in
    [range(p)], whatever the coordinates of the operands were. *)
Theorem add_returns_reduced (x1 y1 x2 y2 : Z) (R : Point Z) :
  0 < p ->
  add C (Affine x1 y1) (Affine x2 y2) = Ok R ->
  Zp.reduced p R = true.
Proof.
  intros Hp. rewrite (add_affine p a).
  destruct (coefficient C (Affine x1 y1) (Affine x2 y2)) as [e | k].
  - destruct e; intros [= <-]; reflexivity.
  - intros [= <-]. apply reduced_affine.
    split; apply Z.mod_pos_bound; exact Hp.
Qed.

Lemma on_curve_mirror (px py : Z) :
  is_on_curve (Affine px ((- py) mod p)) = is_on_curve (Affine px py).
Proof.
  rewrite !(is_on_curve_affine p a b). f_equal. f_equal.
  change (eqm p (((- py) mod p) ^ 2) (py ^ 2)).
  assert (E : eqm p ((- py) mod p) (- py)) by apply Zmod_eqm.
  replace (((- py) mod p) ^ 2) with (((- py) mod p) * ((- py) mod p)) by ring.
  rewrite E. apply eq_eqm. ring.
Qed.


(** X11.  Doubling never returns the identity: [add(P, P)] of a point
    with both coordinates returns a point with both coordinates or
    raises, so a point of order two is never recognised. *)
Theorem double_is_not_infinity (px py : Z) (R : Point Z) :
  add C (Affine px py) (Affine px py) = Ok R -> is_infinite R = false.
Proof. apply add_double_affine. Qed.






Lemma distinct_residues (x1 x2 : Z) :
  0 <= x1 < p -> 0 <= x2 < p -> x1 <> x2 -> (x2 - x1) mod p <> 0.
Proof.
  intros H1 H2 Hne E. apply Hne. symmetry. apply (eqm_canonical p); trivial.
  transitivity ((x2 - x1) + x1); [apply eq_eqm; ring |].
  unfold eqm. rewrite Zplus_mod, E, Z.add_0_l. apply Zmod_mod.
Qed.

(** X13.  When [add] raises, for a prime [p] and abscissas in
    [range(p)] (the points need not be on the curve): exactly in the
    doubling of a point with [2 * y = 0 (mod p)], with the error of the
    field's [invert], and for two points with the same [x] whose
    ordinates differ and do not add up to zero modulo [p], with the
    [ValueError] of case 2. *)
Theorem add_raises_iff (x1 y1 x2 y2 : Z) (e : error) :
  Z.prime p -> 0 <= x1 < p -> 0 <= x2 < p ->
  (add C (Affine x1 y1) (Affine x2 y2) = inl e
   <-> (x1 = x2 /\ y1 = y2 /\ (2 * y1) mod p = 0 /\ e = NonInvertible)
       \/ (x1 = x2 /\ y1 <> y2 /\ (y1 + y2) mod p <> 0 /\ e = ValueError)).
Proof.
  intros Hp Hx1 Hx2. rewrite (add_affine p a), (coefficient_affine p a).
  destruct (Z.eqb_spec x1 x2) as [Ex | Ex]; simpl negb; cbv iota.
  - destruct (Z.eqb_spec y1 y2) as [Ey | Ey]; simpl andb; cbv iota.
    + destruct (Z.eq_dec ((2 * y1) mod p) 0) as [E0 | E0].
      * rewrite (invert_zero p _ E0). simpl. split.
        -- intros [= <-]. left. tauto.
        -- intros [(_ & _ & _ & ->) | (_ & Hn & _)];
             [reflexivity | contradiction].
      * destruct (invert_prime p _ Hp E0) as [r Hr]. rewrite Hr. simpl.
        split; [discriminate |].
        intros [(_ & _ & H0 & _) | (_ & Hn & _)]; contradiction.
    + destruct (Z.eqb_spec ((y1 + y2) mod p) 0) as [E0 | E0]; simpl.
      * split; [discriminate |].
        intros [(_ & Hy & _) | (_ & _ & H0 & _)]; contradiction.
      * split.
        -- intros [= <-]. right. tauto.
        -- intros [(_ & Hy & _) | (_ & _ & _ & ->)];
             [contradiction | reflexivity].
  - destruct (invert_prime p _ Hp (distinct_residues x1 x2 Hx1 Hx2 Ex))
      as [r Hr].
    rewrite Hr. simpl. split; [discriminate |].
    intros [(Hx & _) | (Hx & _)]; contradiction.
Qed.

Lemma collect_Some (fuel : nat) (g : ZpCurve.generator)
    (points : list (Point Z)) :
  ZpCurve.collect p a b fuel g = Ok (Some points) ->
  points = Zp.remaining p a b g.
Proof.
  revert g points. induction fuel as [| fuel IH]; intros g points;
    [discriminate |].
  destruct g as [rest |]; cbn [ZpCurve.collect ZpCurve.next].
  - destruct (resume_yields p a b rest) as [point [g' [Hr Hrem]]].
    rewrite Hr. cbn [bind Ok].
    destruct (ZpCurve.collect p a b fuel g') as [e | [tl |]] eqn:E;
      cbn [bind Ok option_map]; try discriminate.
    intros [= <-]. rewrite Hrem. f_equal. now apply IH.
  - cbn [bind Ok]. now intros [= <-].
Qed.

Lemma In_remaining_valid (P : Point Z) :
  In P (Zp.remaining p a b (ZpCurve.all_points p)) <-> Zp.valid p a b P.
Proof.
  split.
  - intros Hin. pose proof Hin as Hin'.
    rewrite remaining_all_points, in_app_iff, in_map_iff in Hin'.
    destruct Hin' as [[[ux uy] [<- _]] | [<- | []]].
    + apply In_remaining_affine in Hin. destruct Hin as [[Hx Hy] Hc].
      now apply valid_affine.
    + apply valid_infinity.
  - intros HP. destruct (valid_cases p a b P HP)
      as [-> | [px [py [-> [Hr Hc]]]]].
    + rewrite remaining_all_points, in_app_iff. right. now left.
    + apply In_remaining_affine. now split.
Qed.

(** X14.  The points that [all_points()] yields are closed under the
    operations, for a prime [p]: [add] of two of them returns one of
    them, the doubling of a point with a vertical tangent set aside,
    which raises the error of the field's [invert]; and with [(x, y)]
    the list holds its mirror image [(x, -y mod p)]. *)
Theorem all_points_closed (fuel : nat) (points : list (Point Z)) :
  Z.prime p ->
  ZpCurve.collect p a b fuel (ZpCurve.all_points p) = Ok (Some points) ->
  (forall P Q : Point Z,
     In P points -> In Q points ->
     (exists R, add C P Q = Ok R /\ In R points)
     \/ (P = Q /\ add C P P = raise NonInvertible))
  /\ (forall px py : Z,
        In (Affine px py) points -> In (Affine px ((- py) mod p)) points).
Proof.
  intros Hp Hc. apply collect_Some in Hc. subst points. split.
  - intros P Q HP HQ. apply In_remaining_valid in HP, HQ.
    destruct (add_valid p a b P Q Hp HP HQ) as [[R [HR HV]] | HE].
    + left. exists R. split; [exact HR |]. now apply In_remaining_valid.
    + right. exact HE.
  - intros px py Hin. apply In_remaining_affine in Hin.
    destruct Hin as [[Hx Hy] Hon]. apply In_remaining_affine.
    split; [split; [exact Hx | apply Z.mod_pos_bound; lia] |].
    now rewrite on_curve_mirror.
Qed.

(** X15.  [mul] returns for every smaller scalar: for a prime [p] and a
    point [P] of the curve with coordinates in [range(p)], when
    [mul(P, n)] returns, [mul(P, k)] returns a point of the curve with
    coordinates in [range(p)] for every [k <= n]. *)
Theorem mul_returns_below (P R : Point Z) (k n : N) :
  Z.prime p -> Zp.valid p a b P ->
  mul C P n = Ok R -> (k <= n)%N ->
  exists R', mul C P k = Ok R' /\ Zp.valid p a b R'.
Proof.
  intros Hp HP HM Hk.
  apply (mul_total_below C (Zp.valid p a b)) with (R := R) (n := n); trivial.
  - apply valid_infinity.
  - intros U V HU HV. now apply (add_closed p a b).
Qed.
End ZpFurther.

(** ** The order of a point *)

Section PointOrderFurther.
Variables p a b : Z.

Local Abbreviation C := (ZpCurve.curve p a).
Local Abbreviation is_on_curve := (ZpCurve.is_on_curve p a b).
Local Abbreviation point_order := (ZpCurve.point_order p a b).
Local Abbreviation loop := (ZpCurve.point_order_loop p a).

Lemma on_curve_affine (P : Point Z) (on : bool) :
  P <> infinity -> is_on_curve P = Ok on ->
  exists px py, P = Affine px py.
Proof.
  destruct P as [[px |] [py |]]; intros Hn; try discriminate.
  - exists px, py. reflexivity.
  - now destruct Hn.
Qed.

Lemma point_order_cases (P : Point Z) :
  (P = infinity /\ point_order P = raise InfinitePoint)
  \/ (P <> infinity /\ is_on_curve P = raise TypeError
      /\ point_order P = raise TypeError)
  \/ (P <> infinity /\ is_on_curve P = Ok false
      /\ point_order P = raise NotOnCurve)
  \/ (P <> infinity /\ is_on_curve P = Ok true
      /\ point_order P
         = (n <- loop (Z.to_nat p) P 2 ;;
            if n >? p then raise IncorrectOrder else Ok n)).
Proof.
  destruct (point_eqb P infinity) eqn:E.
  - apply point_eqb_eq in E. left. split; [exact E |].
    now apply point_order_signal.
  - apply point_eqb_infinity in E. right.
    destruct (is_on_curve P) as [e | [|]] eqn:Hon.
    + left. pose proof (is_on_curve_error p a b P e Hon) as ->.
      repeat split; trivial. unfold ZpCurve.point_order.
      apply point_eqb_infinity in E. rewrite E, Hon. reflexivity.
    + right. right. repeat split; trivial.
      now apply point_order_on_curve.
    + right. left. repeat split; trivial. unfold ZpCurve.point_order.
      apply point_eqb_infinity in E. rewrite E, Hon. reflexivity.
Qed.



Lemma mul_two (px py : Z) (R : Point Z) :
  mul C (Affine px py) 2 = Ok R -> R <> infinity.
Proof.
  cbn [mul mul_loop]. intros HM.
  apply bind_Ok in HM. destruct HM as [A [HA HM]].
  rewrite add_infinity_l in HM. cbn [bind Ok] in HM.
  apply bind_Ok in HM. destruct HM as [A' [_ [= <-]]].
  intros ->. now apply (add_double_affine p a) in HA.
Qed.

(** X17.  [point_order] never returns [2]: the doubling of case 3 never
    gives the identity, so a returned order [n] satisfies
    [3 <= n <= p], for any modulus and any point. *)
Theorem point_order_at_least_three (P : Point Z) (n : Z) :
  point_order P = Ok n -> 3 <= n <= p.
Proof.
  destruct (point_order_cases P)
    as [[HP ->] | [[HP [Hon ->]] | [[HP [Hon ->]] | [HP [Hon ->]]]]];
    try discriminate.
  destruct (loop (Z.to_nat p) P 2) as [e0 | m] eqn:HL; cbn [bind];
    [discriminate |].
  destruct (m >? p) eqn:En; [discriminate |]. intros [= <-].
  assert (Hm : m <= p).
  { destruct (Z.gtb_spec m p); [discriminate | lia]. }
  destruct (point_order_loop_sound p a P (Z.to_nat p) 2 m)
    as [H2 [_ [R [HR Hinf]]]]; [lia | exact HL |].
  split; [| exact Hm].
  destruct (Z.eq_dec m 2) as [-> | Hne]; [| lia].
  destruct (on_curve_affine P true HP Hon) as [px [py ->]].
  destruct Hinf as [-> | Hlt]; [| lia].
  now apply mul_two in HR.
Qed.

(** X18.  The order of a point of order two cannot be computed: on a
    point of the curve with [2 * y = 0 (mod p)], [point_order] raises
    the error of the field's [invert], from the first multiple that its
    loop evaluates. *)
Theorem point_order_vertical_tangent (px py : Z) :
  is_on_curve (Affine px py) = Ok true ->
  (2 * py) mod p = 0 ->
  point_order (Affine px py) = raise NonInvertible.
Proof.
  intros Hon Hy. rewrite point_order_on_curve; [| discriminate | exact Hon].
  rewrite point_order_loop_unfold.
  change (Z.to_N 2) with 2%N. cbn [mul].
  rewrite (mul_loop_first_doubling C (Affine px py) NonInvertible);
    [reflexivity |].
  now apply add_double_vertical.
Qed.
End PointOrderFurther.

Lemma add_returns_reduced_witness :
  add (ZpCurve.curve 17 2) (Affine 22 1) (Affine 6 3) = Ok (Affine 10 6)
  /\ Zp.reduced 17 (Affine 10 6) = true.
Proof.
  split; [reflexivity |].
  apply (add_returns_reduced 17 2 22 1 6 3); [lia | reflexivity].
Defined.

Lemma double_is_not_infinity_witness :
  add (ZpCurve.curve 17 2) (Affine 5 1) (Affine 5 1) = Ok (Affine 6 3)
  /\ is_infinite (Affine 6 3) = false.
Proof.
  split; [reflexivity |].
  apply (double_is_not_infinity 17 2 5 1). reflexivity.
Defined.


Lemma add_raises_iff_witness :
  Z.prime 5
  /\ (add (ZpCurve.curve 5 4) (Affine 0 0) (Affine 0 0) = raise NonInvertible
      <-> (0 = 0 /\ 0 = 0 /\ (2 * 0) mod 5 = 0
           /\ NonInvertible = NonInvertible)
          \/ (0 = 0 /\ 0 <> 0 /\ (0 + 0) mod 5 <> 0
              /\ NonInvertible = ValueError)).
Proof.
  split; [exact prime_5 |].
  apply (add_raises_iff 5 4 0 0 0 0 NonInvertible); [exact prime_5 | lia | lia].
Defined.

Lemma all_points_closed_witness :
  In (Affine 2 1) (Zp.remaining 5 4 0 (ZpCurve.all_points 5))
  /\ In (Affine 2 (Z.opp 1 mod 5))
        (Zp.remaining 5 4 0 (ZpCurve.all_points 5)).
Proof.
  assert (Hin : In (Affine 2 1) (Zp.remaining 5 4 0 (ZpCurve.all_points 5))).
  { vm_compute. tauto. }
  split; [exact Hin |].
  apply (proj2 (all_points_closed 5 4 0 9
                  (Zp.remaining 5 4 0 (ZpCurve.all_points 5))
                  prime_5 eq_refl) 2 1).
  exact Hin.
Defined.

Lemma mul_returns_below_witness :
  mul (ZpCurve.curve 17 2) (Affine 5 1) 4 = Ok (Affine 3 1)
  /\ exists R', mul (ZpCurve.curve 17 2) (Affine 5 1) 3 = Ok R'
                /\ Zp.valid 17 2 2 R'.
Proof.
  split; [reflexivity |].
  apply (mul_returns_below 17 2 2 (Affine 5 1) (Affine 3 1) 3 4).
  - exact prime_17.
  - split; reflexivity.
  - reflexivity.
  - lia.
Defined.


Lemma point_order_at_least_three_witness :
  ZpCurve.point_order 7 0 1 (Affine 1 3) = Ok 6 /\ 3 <= 6 <= 7.
Proof.
  split; [reflexivity |].
  apply (point_order_at_least_three 7 0 1 (Affine 1 3) 6). reflexivity.
Defined.

Lemma point_order_vertical_tangent_witness :
  ZpCurve.is_on_curve 7 0 1 (Affine 3 0) = Ok true
  /\ ZpCurve.point_order 7 0 1 (Affine 3 0) = raise NonInvertible.
Proof.
  split; [reflexivity |].
  apply (point_order_vertical_tangent 7 0 1 3 0); reflexivity.
Defined.

(** ** The binary curves *)

Section BinaryFurther.
Context {T : Type} {EqT : Eqb T} {OpsT : PolynomialOps T}.
Variables (F : Field T) (one : T).
Hypothesis laws : BinaryField F one.
Variables a b : T.
Local Open Scope poly_scope.

Local Abbreviation NS := (GF2NotSupersingularCurve.curve F a b).
Local Abbreviation SS := (GF2SupersingularCurve.curve F a b).

(** X19.  On the binary curves the mirror image of a point is its
    inverse: [add] of [(x, y)] and [(x, modulus(a * x + y))] on the
    curve that is not supersingular, of [(x, y)] and
    [(x, modulus(a + y))] on the supersingular one, returns the
    identity when the two points differ, whether or not they are on the
    curve. *)
Theorem binary_add_mirror (x1 y1 : T) :
  (y1 <> modulus F (a * x1 + y1) ->
   add NS (Affine x1 y1) (Affine x1 (modulus F (a * x1 + y1))) = Ok infinity)
  /\ (y1 <> modulus F (a + y1) ->
      add SS (Affine x1 y1) (Affine x1 (modulus F (a + y1))) = Ok infinity).
Proof.
  split; intros Hne; unfold add; simpl is_infinite; cbv iota.
  - rewrite NS_coefficient_affine, eqb_refl, (eqb_neq _ _ Hne).
    simpl negb. simpl andb. cbv iota.
    now rewrite (modulus_idem F one laws), eqb_refl.
  - rewrite SS_coefficient_affine, eqb_refl, (eqb_neq _ _ Hne).
    simpl negb. simpl andb. cbv iota.
    now rewrite (modulus_idem F one laws), eqb_refl.
Qed.

(** X20.  What [add] returns on a binary curve for two points with both
    coordinates is the identity or a point whose coordinates [modulus]
    keeps, whatever the coordinates of the operands were. *)
Theorem binary_add_returns_reduced (x1 y1 x2 y2 : T) (R : Point T) :
  (add NS (Affine x1 y1) (Affine x2 y2) = Ok R -> GF2.reduced F R = true)
  /\ (add SS (Affine x1 y1) (Affine x2 y2) = Ok R -> GF2.reduced F R = true).
Proof.
  split; unfold add; simpl is_infinite; cbv iota.
  - destruct (coefficient NS (Affine x1 y1) (Affine x2 y2)) as [e | k].
    + destruct e; intros [= <-]; reflexivity.
    + cbn. rewrite !(normalize_modulus F one laws). intros [= <-].
      unfold GF2.reduced. cbn.
      now rewrite !(modulus_idem F one laws), !eqb_refl.
  - destruct (coefficient SS (Affine x1 y1) (Affine x2 y2)) as [e | k].
    + destruct e; intros [= <-]; reflexivity.
    + cbn. rewrite !(normalize_modulus F one laws). intros [= <-].
      unfold GF2.reduced. cbn.
      now rewrite !(modulus_idem F one laws), !eqb_refl.
Qed.

(** X21.  On a supersingular curve whose coefficient [a] reduces to the
    zero element no multiple can be computed: [mul(P, n)] raises the
    calculation error for every point other than the identity and every
    [n >= 1], from the doubling of its first iteration. *)
Theorem supersingular_mul_raises (P : Point T) (n : N) :
  modulus F a = zero F -> is_infinite P = false -> (0 < n)%N ->
  mul SS P n = raise CalculationError.
Proof.
  intros Ha HP Hn. destruct n as [| s]; [lia |].
  apply mul_loop_first_doubling. unfold add. rewrite HP.
  rewrite coefficient_double. cbn.
  unfold GF2SupersingularCurve.third_case_coefficient.
  now rewrite Ha, eqb_refl.
Qed.
End BinaryFurther.

Lemma binary_add_mirror_witness :
  add (GF2NotSupersingularCurve.curve GF4.field GF4.one GF4.one)
      (Affine GF4.one GF4.zero)
      (Affine GF4.one
         (modulus GF4.field (GF4.one * GF4.one + GF4.zero)%poly))
  = Ok infinity.
Proof.
  apply (proj1 (binary_add_mirror GF4.field GF4.one GF4_BinaryField
                  GF4.one GF4.one GF4.one GF4.zero)).
  vm_compute. discriminate.
Defined.

Lemma binary_add_returns_reduced_witness :
  exists R : Point GF4.t,
    add (GF2NotSupersingularCurve.curve GF4.field GF4.one GF4.one)
        (Affine GF4.one GF4.zero) (Affine GF4.zero GF4.one) = Ok R
    /\ GF2.reduced GF4.field R = true.
Proof.
  eexists. split; [vm_compute; reflexivity |].
  apply (proj1 (binary_add_returns_reduced GF4.field GF4.one GF4_BinaryField
                  GF4.one GF4.one GF4.one GF4.zero GF4.zero GF4.one _)).
  vm_compute. reflexivity.
Defined.

Lemma supersingular_mul_raises_witness :
  mul (GF2SupersingularCurve.curve GF4.field GF4.zero GF4.one)
      (Affine GF4.one GF4.one) 3
  = raise CalculationError.
Proof.
  apply (supersingular_mul_raises GF4.field GF4.zero GF4.one);
    [reflexivity | reflexivity | lia].
Defined.

(** ** The loop of [mul] on integers of either sign *)

Section ScalarLoop.
Context {T : Type} `{Eqb T}.
Variable C : Curve T.

Lemma mul_while_positive (s : positive) (fuel : nat) (R A : Point T) :
  (Pos.size_nat s <= fuel)%nat ->
  mul_while C fuel (Z.pos s) R A = Some (mul_loop C s R A).
Proof.
  revert fuel R A. induction s as [s IH | s IH |]; intros fuel R A Hf;
    (destruct fuel as [| fuel]; [simpl in Hf; lia |]);
    cbn [mul_while mul_loop Z.eqb Z.land Pos.land negb].
  - change (Z.shiftr (Z.pos s~1) 1) with (Z.pos s).
    destruct (add C R A) as [e | R1]; [reflexivity |].
    destruct (add C A A) as [e | A1]; [reflexivity |].
    cbn [bind]. apply IH. simpl in Hf. lia.
  - change (Z.shiftr (Z.pos s~0) 1) with (Z.pos s).
    destruct (add C A A) as [e | A1]; [reflexivity |].
    cbn [bind]. apply IH. simpl in Hf. lia.
  - change (Z.shiftr 1 1) with 0.
    destruct (add C R A) as [e | R1]; [reflexivity |].
    destruct (add C A A) as [e | A1]; [reflexivity |].
    cbn [bind]. destruct fuel; reflexivity.
Qed.

(** X22.  On a scalar [n >= 0] the loop of [mul] ends within as many
    iterations as [n] has binary digits, and what it returns or raises
    is [mul(P, n)] as read by the digits of [n]. *)
Theorem mul_while_nonnegative (P : Point T) (n : N) (fuel : nat) :
  (N.size_nat n <= fuel)%nat ->
  mul_while C fuel (Z.of_N n) infinity P = Some (mul C P n).
Proof.
  destruct n as [| s]; intros Hf.
  - destruct fuel; reflexivity.
  - now apply mul_while_positive.
Qed.

(** X23.  On a negative scalar [mul] never returns: the shift keeps the
    scalar negative, so the loop runs until an [add] raises, and for
    ever when none does. *)
Theorem mul_while_negative (fuel : nat) (scalar : Z) (R A : Point T) :
  scalar < 0 ->
  mul_while C fuel scalar R A = None
  \/ exists e, mul_while C fuel scalar R A = Some (raise e).
Proof.
  revert scalar R A. induction fuel as [| fuel IH]; intros scalar R A Hs;
    cbn [mul_while]; destruct (Z.eqb_spec scalar 0) as [E | _]; try lia.
  - now left.
  - destruct (if negb (Z.land scalar 1 =? 0) then add C R A else Ok R)
      as [e | R1]; [right; now exists e |].
    destruct (add C A A) as [e | A1]; [right; now exists e |].
    apply IH. now apply Z.shiftr_neg.
Qed.
End ScalarLoop.

Lemma mul_while_nonnegative_witness :
  mul_while (ZpCurve.curve 17 2) 3 (Z.of_N 4) infinity (Affine 5 1)
  = Some (Ok (Affine 3 1)).
Proof.
  rewrite (mul_while_nonnegative (ZpCurve.curve 17 2) (Affine 5 1) 4 3);
    [reflexivity | simpl; lia].
Defined.

Lemma mul_while_negative_witness :
  mul_while (ZpCurve.curve 17 2) 40 (-3) infinity (Affine 5 1) = None
  \/ exists e,
       mul_while (ZpCurve.curve 17 2) 40 (-3) infinity (Affine 5 1)
       = Some (raise e).
Proof.
  apply (mul_while_negative (ZpCurve.curve 17 2) 40 (-3)). lia.
Defined.
